(** * go-ringqueue: a fixed-capacity ring queue and its locking coordinator

    A shallow embedding of [unsafeRQ] (the single-threaded ring buffer) and
    of [safeRQ] (the mutex-guarded coordinator) of package [ringqueue],
    followed by the properties of the two that the specification states.

    Conventions of the embedding:
    - a Go [int] is a [Z] kept in the signed 64-bit range, with the
      wrap-around of [+] and [-] written out ([int_add], [int_sub]);
      [%] is Go's truncated remainder ([Z.rem]) and panics on a zero divisor;
    - a slice [[]T] is a [list T]; indexing outside [0, len) panics;
    - a method with a pointer receiver is a function from the receiver's
      state to an outcome ([exec]) holding the returned tuple and the new
      state, or a run-time panic;
    - an [error] result is an [option error], [None] being Go's [nil]. *)

From Stdlib Require Import ZArith Lia Bool List.
From stdpp Require Import base list.
Import ListNotations.

Local Open Scope Z_scope.

(** ** Machine integers *)

Definition intMax : Z := 2 ^ 63 - 1.
Definition intMin : Z := - 2 ^ 63.

(** Two's complement wrap-around of a 64-bit signed integer. *)
Definition wrap (z : Z) : Z := (z + 2 ^ 63) mod 2 ^ 64 - 2 ^ 63.

Definition int_add (a b : Z) : Z := wrap (a + b).
Definition int_sub (a b : Z) : Z := wrap (a - b).

(** ** Errors, panics, outcomes *)

Inductive error : Type :=
| ErrFullQueue
| ErrEmptyQueue
| ErrClosed
| ErrUnsupported
| DeadlineExceeded.

Inductive panic : Type :=
| IndexOutOfRange
| DivideByZero
| MakeSliceLenOutOfRange
| Unreachable.

(** What a call does: it returns, it panics, or (a [select] with no ready
    case and no [default]) it blocks. *)
Inductive exec (A : Type) : Type :=
| Done (a : A)
| Panic (p : panic)
| Blocked.

Arguments Done {A} a.
Arguments Panic {A} p.
Arguments Blocked {A}.

Definition exec_bind {A B : Type} (f : A -> exec B) (m : exec A) : exec B :=
  match m with
  | Done a => f a
  | Panic p => Panic p
  | Blocked => Blocked
  end.

#[global] Instance exec_mbind : MBind exec := @exec_bind.
#[global] Instance exec_mret : MRet exec := @Done.

(** [a % b] on Go ints. *)
Definition int_rem (a b : Z) : exec Z :=
  if b =? 0 then Panic DivideByZero else Done (Z.rem a b).

(** ** Policies (interface.go) *)

Definition WhenFullError : Z := 0.
Definition WhenFullOverwrite : Z := 1.

Definition WhenEmptyError : Z := 0.
Definition WhenEmptyBlock : Z := 1.

(** ** The ring buffer [unsafeRQ] *)

Module Unsafe.
Section WithElem.

Context {T : Type}.
(** The zero value of the element type ([var res T]). *)
Variable zero : T.
(** What the close callback acts on: the world outside the queue. *)
Context {W : Type}.

(** [OnCloseFunc[T]]: [func(data []T, start int, end int, isFull bool)]. *)
Definition OnCloseFunc : Type := list T -> Z -> Z -> bool -> W -> W.

Record unsafeRQ : Type := mkRQ {
  data : list T;
  isFull : bool;
  start : Z;
  end_ : Z;
  whenFull : Z;
  closeOnce : bool;
  closed : bool;
  onClose : option OnCloseFunc
}.

Definition set_data (d : list T) (r : unsafeRQ) : unsafeRQ :=
  mkRQ d (isFull r) (start r) (end_ r) (whenFull r) (closeOnce r) (closed r) (onClose r).
Definition set_isFull (b : bool) (r : unsafeRQ) : unsafeRQ :=
  mkRQ (data r) b (start r) (end_ r) (whenFull r) (closeOnce r) (closed r) (onClose r).
Definition set_start (s : Z) (r : unsafeRQ) : unsafeRQ :=
  mkRQ (data r) (isFull r) s (end_ r) (whenFull r) (closeOnce r) (closed r) (onClose r).
Definition set_end (e : Z) (r : unsafeRQ) : unsafeRQ :=
  mkRQ (data r) (isFull r) (start r) e (whenFull r) (closeOnce r) (closed r) (onClose r).
Definition set_closeOnce (b : bool) (r : unsafeRQ) : unsafeRQ :=
  mkRQ (data r) (isFull r) (start r) (end_ r) (whenFull r) b (closed r) (onClose r).
Definition set_closed (b : bool) (r : unsafeRQ) : unsafeRQ :=
  mkRQ (data r) (isFull r) (start r) (end_ r) (whenFull r) (closeOnce r) b (onClose r).

(** [len(s)] of a slice. *)
Definition len (d : list T) : Z := Z.of_nat (length d).

(** [s[i]] as an expression. *)
Definition index (d : list T) (i : Z) : exec T :=
  if (0 <=? i) && (i <? len d) then
    match d !! Z.to_nat i with
    | Some x => Done x
    | None => Panic IndexOutOfRange
    end
  else Panic IndexOutOfRange.

(** [s[i] = x] as a statement. *)
Definition store (d : list T) (i : Z) (x : T) : exec (list T) :=
  if (0 <=? i) && (i <? len d) then Done (<[Z.to_nat i := x]> d)
  else Panic IndexOutOfRange.

(** [make([]T, capacity)]. *)
Definition make (capacity : Z) : exec (list T) :=
  if capacity <? 0 then Panic MakeSliceLenOutOfRange
  else Done (repeat zero (Z.to_nat capacity)).

Definition newUnsafe (capacity : Z) (whenFull0 : Z) (onCloseFunc : option OnCloseFunc)
  : exec (unsafeRQ * option error) :=
  d ← make capacity;
  Done (mkRQ d false 0 0 whenFull0 false false onCloseFunc, None).

Definition NewUnsafe (capacity : Z) (whenFull0 whenEmpty : Z) (onCloseFunc : option OnCloseFunc)
  : exec (option unsafeRQ * option error) :=
  if negb (whenEmpty =? WhenEmptyError) then Done (None, Some ErrUnsupported)
  else
'(r, e) ← newUnsafe capacity whenFull0 onCloseFunc;
    Done (Some r, e).

Definition Len (r : unsafeRQ) : Z :=
  if closed r then 0
  else
    let res := int_sub (end_ r) (start r) in
    if (res <? 0) || ((res =? 0) && isFull r)
    then int_sub (len (data r)) res
    else res.

Definition Cap (r : unsafeRQ) : Z :=
  if closed r then 0 else len (data r).

Definition IsFull (r : unsafeRQ) : bool :=
  if closed r then false else isFull r.

(** The [switch r.whenFull] of [Push], entered when [r.isFull]: the error
    to return, or [None] to go on pushing. *)
Definition full_policy (r : unsafeRQ) : option error :=
  if whenFull r =? WhenFullError then Some ErrFullQueue
  else if whenFull r =? WhenFullOverwrite then None
  else Some ErrUnsupported.

Definition Push (elem : T) (r : unsafeRQ) : exec ((Z * option error) * unsafeRQ) :=
  if closed r then Done ((0, Some ErrClosed), r)
  else
    match (if isFull r then full_policy r else None) with
    | Some e => Done ((0, Some e), r)
    | None =>
      d ← store (data r) (end_ r) elem;
      let r1 := set_data d r in
      e ← int_rem (int_add (end_ r1) 1) (len (data r1));
      let r2 := set_end e r1 in
      let r3 := set_isFull (end_ r2 =? start r2) r2 in
      Done ((Len r3, None), r3)
    end.

Definition Pop (r : unsafeRQ) : exec ((T * Z * option error) * unsafeRQ) :=
  if closed r then Done ((zero, 0, Some ErrClosed), r)
  else if negb (isFull r) && (start r =? end_ r)
  then Done ((zero, 0, Some ErrEmptyQueue), r)
  else
    res ← index (data r) (start r);
    s ← int_rem (int_add (start r) 1) (len (data r));
    let r1 := set_start s r in
    let r2 := set_isFull false r1 in
    Done ((res, Len r2, None), r2).

Definition Peek (r : unsafeRQ) : exec ((T * Z * option error) * unsafeRQ) :=
  if closed r then Done ((zero, 0, Some ErrClosed), r)
  else if negb (isFull r) && (start r =? end_ r)
  then Done ((zero, 0, Some ErrEmptyQueue), r)
  else
    x ← index (data r) (start r);
    Done ((x, Len r, None), r).

(** [time.Time] is an instant counted in some unit, [0] being the zero time. *)
Definition SetPopDeadline (t : Z) (r : unsafeRQ) : option error * unsafeRQ :=
  (Some ErrUnsupported, r).

(** [if r.onClose != nil { r.onClose(r.data, r.start, r.end, r.isFull) }]:
    what the callback makes of the world [w]. *)
Definition finalized (r : unsafeRQ) (w : W) : W :=
  match onClose r with
  | Some f => f (data r) (start r) (end_ r) (isFull r) w
  | None => w
  end.

(** The body handed to [r.closeOnce.Do]. *)
Definition close_body (r : unsafeRQ) (w : W) : unsafeRQ * W :=
  let r1 := set_closed true r in
  let w1 := finalized r1 w in
  (set_data [] r1, w1).

Definition Close (r : unsafeRQ) (w : W) : option error * unsafeRQ * W :=
  if closeOnce r then (None, r, w)
  else
    let '(r1, w1) := close_body (set_closeOnce true r) w in
    (None, r1, w1).

End WithElem.
End Unsafe.

(** ** The coordinator [safeRQ]

    One goroutine at a time is modelled: [sync.Mutex] is then always free
    when a method locks it, and locking and unlocking leave no trace.  A
    channel is the state a [select] can observe: [closedCh] tells whether
    [s.closed] has been closed, [available] whether the one-slot channel
    holds its token.  When several cases of a [select] are ready Go picks
    one at random: the pick is the number [choice] handed to the method.
    The pion [deadline.Deadline] is kept as the instant it was set to
    ([0]: none); its [Done()] channel is closed once the clock has reached
    that instant. *)

Module Safe.
Section WithElem.

Context {T : Type}.
Variable zero : T.
Context {W : Type}.

Abbreviation unsafeRQ := (@Unsafe.unsafeRQ T W).

Record safeRQ : Type := mkSafe {
  rq : unsafeRQ;
  closedCh : bool;
  closeOnce : bool;
  deadline : Z;
  whenEmpty : Z;
  available : bool
}.

(** What lies outside the queue: the clock and the world of the close
    callback. *)
Record env : Type := mkEnv {
  now : Z;
  world : W
}.

Definition set_rq (r : unsafeRQ) (s : safeRQ) : safeRQ :=
  mkSafe r (closedCh s) (closeOnce s) (deadline s) (whenEmpty s) (available s).
Definition set_closedCh (b : bool) (s : safeRQ) : safeRQ :=
  mkSafe (rq s) b (closeOnce s) (deadline s) (whenEmpty s) (available s).
Definition set_closeOnce (b : bool) (s : safeRQ) : safeRQ :=
  mkSafe (rq s) (closedCh s) b (deadline s) (whenEmpty s) (available s).
Definition set_deadline (t : Z) (s : safeRQ) : safeRQ :=
  mkSafe (rq s) (closedCh s) (closeOnce s) t (whenEmpty s) (available s).
Definition set_available (b : bool) (s : safeRQ) : safeRQ :=
  mkSafe (rq s) (closedCh s) (closeOnce s) (deadline s) (whenEmpty s) b.

Definition NewSafe (capacity : Z) (whenFull whenEmpty0 : Z)
    (onCloseFunc : option (@Unsafe.OnCloseFunc T W))
  : exec (option safeRQ * option error) :=
  match Unsafe.newUnsafe zero capacity whenFull onCloseFunc with
  | Done (r, Some e) => Done (None, Some e)
  | Done (r, None) =>
    if negb (whenEmpty0 =? WhenEmptyError) && negb (whenEmpty0 =? WhenEmptyBlock)
    then Done (None, Some ErrUnsupported)
    else Done (Some (mkSafe r false false 0 whenEmpty0 false), None)
  | Panic p => Panic p
  | Blocked => Blocked
  end.

Definition SetPopDeadline (t : Z) (s : safeRQ) : option error * safeRQ :=
  if negb (whenEmpty s =? WhenEmptyBlock) then (Some ErrUnsupported, s)
  else (None, set_deadline t s).

Definition Close (s : safeRQ) (e : env) : option error * safeRQ * env :=
  let s1 := if closeOnce s then s else set_closedCh true (set_closeOnce true s) in
  let '(err, r, w) := Unsafe.Close (rq s1) (world e) in
  (err, set_rq r s1, mkEnv (now e) w).

Definition Len (s : safeRQ) : Z := Unsafe.Len (rq s).
Definition Cap (s : safeRQ) : Z := Unsafe.Cap (rq s).

Definition guardedPush (element : T) (s : safeRQ) : exec ((Z * option error) * safeRQ) :=
  match Unsafe.Push element (rq s) with
  | Done ((newLen, Some err), r) => Done ((0, Some err), set_rq r s)
  | Done ((newLen, None), r) => Done ((newLen, None), set_rq r s)
  | Panic p => Panic p
  | Blocked => Blocked
  end.

(** The ready case of a [select] that the scheduler picks. *)
Definition pick {A : Type} (choice : nat) (ready : list A) : option A :=
  ready !! (choice mod length ready)%nat.

Inductive push_case : Type := PushClosed | PushAvailable.

Definition Push (choice : nat) (element : T) (s : safeRQ)
  : exec ((Z * option error) * safeRQ) :=
'((newLen, err), s1) ← guardedPush element s;
  if whenEmpty s1 =? WhenEmptyBlock then
    let ready := (if closedCh s1 then [PushClosed] else [])
                 ++ (if available s1 then [] else [PushAvailable]) in
    match pick choice ready with
    | Some PushClosed => Done ((0, Some ErrClosed), s1)
    | Some PushAvailable => Done ((newLen, err), set_available true s1)
    | None => Done ((newLen, err), s1)
    end
  else Done ((newLen, err), s1).

Definition guardedPop (s : safeRQ) : exec ((T * Z * option error) * safeRQ) :=
'(res, r) ← Unsafe.Pop zero (rq s);
  Done (res, set_rq r s).

Inductive pop_case : Type := PopClosed | PopAvailable | PopDeadline.

(** Whether [s.deadline.Done()] is closed at instant [t]. *)
Definition deadline_done (s : safeRQ) (t : Z) : bool :=
  negb (deadline s =? 0) && (deadline s <=? t).

(** [Pop] calls itself after it has taken the token of [available];
    [fuel] bounds these calls and [sched] gives the pick of each [select]
    in turn.  The channel holds one token at most, so one nested call is
    all a single goroutine can make ([Pop] below). *)
Fixpoint Pop_fuel (fuel : nat) (sched : list nat) (s : safeRQ) (e : env)
  : exec ((T * Z * option error) * safeRQ * env) :=
  match guardedPop s with
  | Done ((elem, newLen, None), s1) => Done ((elem, newLen, None), s1, e)
  | Done ((elem, newLen, Some err), s1) =>
    if whenEmpty s1 =? WhenEmptyError then Done ((zero, 0, Some ErrEmptyQueue), s1, e)
    else if whenEmpty s1 =? WhenEmptyBlock then
      let ready := (if closedCh s1 then [PopClosed] else [])
                   ++ (if available s1 then [PopAvailable] else [])
                   ++ (if deadline_done s1 (now e) then [PopDeadline] else []) in
      match pick (hd 0%nat sched) ready with
      | Some PopClosed => Done ((zero, 0, Some ErrClosed), s1, e)
      | Some PopAvailable =>
        match fuel with
        | S fuel' => Pop_fuel fuel' (tl sched) (set_available false s1) e
        | O => Blocked
        end
      | Some PopDeadline => Done ((zero, 0, Some DeadlineExceeded), s1, e)
      | None =>
        (* nothing is ready: the goroutine sleeps until the deadline, if one is set *)
        if negb (deadline s1 =? 0)
        then Done ((zero, 0, Some DeadlineExceeded), s1, mkEnv (deadline s1) (world e))
        else Blocked
      end
    else Panic Unreachable
  | Panic p => Panic p
  | Blocked => Blocked
  end.

Definition Pop (sched : list nat) (s : safeRQ) (e : env)
  : exec ((T * Z * option error) * safeRQ * env) :=
  Pop_fuel 1 sched s e.

Definition Peek (s : safeRQ) : exec ((T * Z * option error) * safeRQ) :=
'(res, r) ← Unsafe.Peek zero (rq s);
  Done (res, set_rq r s).

End WithElem.
End Safe.

(** ** Runs of the ring buffer

    The loops of queue_test.go over one buffer: pushing the elements of a
    list in turn, popping a number of times, popping until [Pop] returns an
    error, and running a sequence of calls while recording every state. *)

Section Runs.

Context {T : Type}.
Variable zero : T.
Context {W : Type}.

Abbreviation RQ := (@Unsafe.unsafeRQ T W).

Fixpoint pushAll (xs : list T) (r : RQ) : exec (list (Z * option error) * RQ) :=
  match xs with
  | [] => Done ([], r)
  | x :: xs' =>
    '(res, r1) ← Unsafe.Push x r;
    '(rest, r2) ← pushAll xs' r1;
    Done (res :: rest, r2)
  end.

Fixpoint popN (n : nat) (r : RQ) : exec (list (T * Z * option error) * RQ) :=
  match n with
  | O => Done ([], r)
  | S n' =>
    '(res, r1) ← Unsafe.Pop zero r;
    '(rest, r2) ← popN n' r1;
    Done (res :: rest, r2)
  end.

(** Pops until [Pop] returns an error, [fuel] times at most; the result
    holds the elements popped and the error that ended the loop ([None]
    when [fuel] ran out first). *)
Fixpoint drain (fuel : nat) (r : RQ) : exec (list T * option error * RQ) :=
  match fuel with
  | O => Done ([], None, r)
  | S fuel' =>
    '((x, _, err), r1) ← Unsafe.Pop zero r;
    match err with
    | Some e => Done ([], Some e, r1)
    | None =>
      '(xs, e, r2) ← drain fuel' r1;
      Done (x :: xs, e, r2)
    end
  end.

Inductive op : Type :=
| OpPush (x : T)
| OpPop
| OpPeek.

(** One call; of what it returns the error is kept. *)
Definition step (o : op) (r : RQ) : exec (option error * RQ) :=
  match o with
  | OpPush x => '((_, err), r1) ← Unsafe.Push x r; Done (err, r1)
  | OpPop => '((_, _, err), r1) ← Unsafe.Pop zero r; Done (err, r1)
  | OpPeek => '((_, _, err), r1) ← Unsafe.Peek zero r; Done (err, r1)
  end.

(** The calls of [ops] in turn, with the error and the state after each. *)
Fixpoint run (ops : list op) (r : RQ) : exec (list (op * option error * RQ)) :=
  match ops with
  | [] => Done []
  | o :: ops' =>
    '(err, r1) ← step o r;
    rest ← run ops' r1;
    Done ((o, err, r1) :: rest)
  end.

(** The element and the error of a [Pop] or [Peek] result. *)
Definition elem_err (res : T * Z * option error) : T * option error :=
  (fst (fst res), snd res).

(** ** Invariants *)

(** The indices of an open buffer of capacity [c] are in range. *)
Definition Idx (c : Z) (r : RQ) : Prop :=
  Unsafe.closed r = false /\
  Unsafe.len (Unsafe.data r) = c /\
  0 <= Unsafe.start r < c /\
  0 <= Unsafe.end_ r < c.

(** [Rep r l]: the open buffer [r] holds the queue [l], oldest element
    first, in the slots from [start] on, modulo the capacity. *)
Definition Rep (r : RQ) (l : list T) : Prop :=
  let c := Unsafe.len (Unsafe.data r) in
  Unsafe.closed r = false /\
  1 <= c <= intMax /\
  0 <= Unsafe.start r < c /\
  Z.of_nat (length l) <= c /\
  Unsafe.end_ r = (Unsafe.start r + Z.of_nat (length l)) mod c /\
  Unsafe.isFull r = (Z.of_nat (length l) =? c) /\
  forall i : nat, (i < length l)%nat ->
    Unsafe.data r !! Z.to_nat ((Unsafe.start r + Z.of_nat i) mod c) = l !! i.

(** What the indices and the flag satisfy after one call of a run. *)
Definition step_ok (c : Z) (entry : op * option error * RQ) : Prop :=
  let '(o, err, r) := entry in
  0 <= Unsafe.start r < c /\
  0 <= Unsafe.end_ r < c /\
  match o with
  | OpPush _ => err = None -> Unsafe.isFull r = (Unsafe.end_ r =? Unsafe.start r)
  | OpPop => err = None -> Unsafe.isFull r = false
  | OpPeek => True
  end.

End Runs.

(** ** Scenarios

    Runs over a queue of integers, after queue_test.go and the scenarios
    of the specification. *)

Module Scenario.

(** The arguments of every call of a close callback, oldest first. *)
Definition close_log : Type := list (list Z * Z * Z * bool).

(** A close callback that records its arguments. *)
Definition record_close : @Unsafe.OnCloseFunc Z close_log :=
  fun data start end_ isFull log => log ++ [(data, start, end_, isFull)].

Definition new (capacity whenFull : Z) : exec (@Unsafe.unsafeRQ Z close_log) :=
  '(r, _) ← Unsafe.newUnsafe 0 capacity whenFull (Some record_close);
  Done r.

(** Capacity 3: three pushes fill the buffer, one pop moves [start] past
    [end]. *)
Definition wrapped : exec (@Unsafe.unsafeRQ Z close_log) :=
  r ← new 3 WhenFullError;
  '(_, r) ← pushAll [1; 2; 3] r;
  '(_, r) ← popN 0 1 r;
  Done r.

(** Capacity 3: two pushes and two pops leave the buffer empty with both
    indices on the last slot. *)
Definition emptied : exec (@Unsafe.unsafeRQ Z close_log) :=
  r ← new 3 WhenFullError;
  '(_, r) ← pushAll [1; 2] r;
  '(_, r) ← popN 0 2 r;
  Done r.

(** Capacity 3, Overwrite: four pushes, then popping until empty. *)
Definition overwrite_drain : exec (list Z * option error) :=
  r ← new 3 WhenFullOverwrite;
  '(_, r) ← pushAll [1; 2; 3; 4] r;
  '(xs, e, _) ← drain 0 4 r;
  Done (xs, e).

(** Capacity 3, Overwrite: the buffer is filled with [start] on the last
    slot, then pushed to once more; the result is that of the last push,
    with the capacity. *)
Definition overwrite_len : exec (Z * option error * Z) :=
  r ← new 3 WhenFullOverwrite;
  '(_, r) ← pushAll [1; 2; 3] r;
  '(_, r) ← popN 0 2 r;
  '(_, r) ← pushAll [4; 5] r;
  '(res, r) ← Unsafe.Push 6 r;
  Done (res, Unsafe.Cap r).

(** TestPushPop: capacity 10, push 0..7, pop five times, push 100..106,
    pop until empty.  The result holds the five elements popped first, the
    errors of the seven later pushes, and the elements popped last with the
    error that ended the loop. *)
Definition push_pop : exec (list (Z * option error) * list (option error)
                            * list Z * option error) :=
  r ← new 10 WhenFullError;
  '(_, r) ← pushAll [0; 1; 2; 3; 4; 5; 6; 7] r;
  '(popped, r) ← popN 0 5 r;
  '(pushed, r) ← pushAll [100; 101; 102; 103; 104; 105; 106] r;
  '(xs, e, _) ← drain 0 11 r;
  Done (map elem_err popped, map snd pushed, xs, e).

(** Capacity 2 holding the one element 7. *)
Definition one_of_two : exec (@Unsafe.unsafeRQ Z close_log) :=
  r ← new 2 WhenFullError;
  '(_, r) ← Unsafe.Push 7 r;
  Done r.

(** Capacity 1 holding the one element 7: a full buffer. *)
Definition full_one : exec (@Unsafe.unsafeRQ Z close_log) :=
  r ← new 1 WhenFullError;
  '(_, r) ← Unsafe.Push 7 r;
  Done r.

(** A coordinator of capacity 1 that has been closed. *)
Definition closed_safe (whenEmpty : Z) : exec (@Safe.safeRQ Z close_log) :=
  '(s, _) ← Safe.NewSafe 0 1 WhenFullError whenEmpty (Some record_close);
  match s with
  | Some s => Done (snd (fst (Safe.Close s (Safe.mkEnv 0 []))))
  | None => Blocked
  end.

End Scenario.

(** ** Calls with all they return, and the queue they implement *)

Section Calls.

Context {T : Type}.
Variable zero : T.
Context {W : Type}.

(** One call, with the element and the error it returns ([Push] returns
    no element: the zero value stands for it). *)
Definition call (o : @op T) (r : @Unsafe.unsafeRQ T W)
  : exec ((T * option error) * @Unsafe.unsafeRQ T W) :=
  match o with
  | OpPush x => '((_, err), r1) ← Unsafe.Push x r; Done ((zero, err), r1)
  | OpPop => '(res, r1) ← Unsafe.Pop zero r; Done (elem_err res, r1)
  | OpPeek => '(res, r1) ← Unsafe.Peek zero r; Done (elem_err res, r1)
  end.

Fixpoint calls (ops : list (@op T)) (r : @Unsafe.unsafeRQ T W)
  : exec (list (T * option error) * @Unsafe.unsafeRQ T W) :=
  match ops with
  | [] => Done ([], r)
  | o :: ops' =>
    '(res, r1) ← call o r;
    '(rest, r2) ← calls ops' r1;
    Done (res :: rest, r2)
  end.

(** The bounded queue the buffer stands for under the Error full-policy:
    a list of at most [c] elements, oldest first.  This is the reference
    the code is compared with, not a part of it. *)
Definition queue_call (c : nat) (o : @op T) (l : list T) : (T * option error) * list T :=
  match o with
  | OpPush x =>
    if (length l <? c)%nat then ((zero, None), l ++ [x])
    else ((zero, Some ErrFullQueue), l)
  | OpPop =>
    match l with
    | [] => ((zero, Some ErrEmptyQueue), l)
    | y :: l' => ((y, None), l')
    end
  | OpPeek =>
    match l with
    | [] => ((zero, Some ErrEmptyQueue), l)
    | y :: _ => ((y, None), l)
    end
  end.

Fixpoint queue_calls (c : nat) (ops : list (@op T)) (l : list T)
  : list (T * option error) * list T :=
  match ops with
  | [] => ([], l)
  | o :: ops' =>
    let '(res, l1) := queue_call c o l in
    let '(rest, l2) := queue_calls c ops' l1 in
    (res :: rest, l2)
  end.

(** The body of the loop of [simRQ] (queue_test.go): make room by a pop
    when the buffer is full, then push. *)
Definition simRQ_step (n : T) (r : @Unsafe.unsafeRQ T W) : exec (@Unsafe.unsafeRQ T W) :=
  r1 ← (if Unsafe.IsFull r then '(_, r1) ← Unsafe.Pop zero r; Done r1 else Done r);
  '(_, r2) ← Unsafe.Push n r1;
  Done r2.

End Calls.

(** [simRQ]: [for n := 0; n < iterations; n++] around [simRQ_step], on a
    new buffer of integers under the Error full-policy.  The source runs
    1000000 iterations and prints the time they took; the buffer the loop
    leaves is what is kept here. *)
Fixpoint simRQ_loop (iterations : nat) (n : Z) (r : @Unsafe.unsafeRQ Z unit)
  : exec (@Unsafe.unsafeRQ Z unit) :=
  match iterations with
  | O => Done r
  | S i => r1 ← simRQ_step 0 n r; simRQ_loop i (int_add n 1) r1
  end.

Definition simRQ (capacity : Z) (iterations : nat) : exec (@Unsafe.unsafeRQ Z unit) :=
  '(rr, _) ← Unsafe.newUnsafe 0 capacity WhenFullError None;
  simRQ_loop iterations 0 rr.

(** ** [eqSlices] (queue_test.go) *)

Section EqSlices.

Context {T : Type} `{EqDecision T}.



End EqSlices.

(** * Properties *)

(** ** Integer arithmetic *)

Lemma wrap_small (z : Z) : intMin <= z <= intMax -> wrap z = z.
Proof.
  unfold wrap, intMin, intMax. intros H.
  rewrite Z.mod_small by lia. lia.
Qed.

(** Below twice the modulus, reducing is one subtraction at most. *)
Lemma mod_once (a c : Z) :
  0 <= a < 2 * c -> a mod c = if a <? c then a else a - c.
Proof.
  intros H. destruct (Z.ltb_spec a c) as [Hlt | Hge].
  - apply Z.mod_small. lia.
  - symmetry. apply (Z.mod_unique a c 1); lia.
Qed.

Lemma mod_offset_inj (s c i j : Z) :
  0 <= s < c -> 0 <= i < c -> 0 <= j < c ->
  (s + i) mod c = (s + j) mod c -> i = j.
Proof.
  intros Hs Hi Hj. rewrite !mod_once by lia.
  destruct (Z.ltb_spec (s + i) c), (Z.ltb_spec (s + j) c); lia.
Qed.

Lemma mod_offset_range (s c i : Z) :
  0 <= s < c -> 0 <= i <= c -> 0 <= (s + i) mod c < c.
Proof. intros Hs Hi. apply Z.mod_pos_bound. lia. Qed.

Lemma mod_offset_succ (s c k : Z) :
  0 < c -> ((s + k) mod c + 1) mod c = (s + (k + 1)) mod c.
Proof.
  intros Hc. rewrite Z.add_mod_idemp_l by lia. f_equal. lia.
Qed.

Lemma mod_offset_start (s c k : Z) :
  0 <= s < c -> 0 <= k <= c -> ((s + k) mod c =? s) = (k =? 0) || (k =? c).
Proof.
  intros Hs Hk. rewrite mod_once by lia.
  destruct (Z.ltb_spec (s + k) c), (Z.eqb_spec k 0), (Z.eqb_spec k c); simpl; lia.
Qed.

(** [(i + 1) % c] on an index in range: no overflow, no panic. *)
Lemma next_index (i c : Z) :
  0 <= i < c -> c <= intMax ->
  int_rem (int_add i 1) c = Done ((i + 1) mod c).
Proof.
  intros Hi Hc. unfold int_rem, int_add.
  rewrite wrap_small by (unfold intMin, intMax in *; lia).
  destruct (Z.eqb_spec c 0) as [-> | _]; [lia |].
  rewrite Z.rem_mod_nonneg by lia. reflexivity.
Qed.

Lemma next_index_range (i c : Z) : 0 <= i < c -> 0 <= (i + 1) mod c < c.
Proof. intros Hi. apply Z.mod_pos_bound. lia. Qed.

(** ** One call on a buffer that holds a known queue *)

Section Steps.

Context {T : Type}.
Variable zero : T.
Context {W : Type}.

Implicit Types (r : @Unsafe.unsafeRQ T W) (l : list T) (x : T) (d : list T).

Lemma len_insert d (i : nat) x : Unsafe.len (<[i := x]> d) = Unsafe.len d.
Proof. unfold Unsafe.len. by rewrite length_insert. Qed.

Lemma store_in_range d (i : Z) x :
  0 <= i < Unsafe.len d -> Unsafe.store d i x = Done (<[Z.to_nat i := x]> d).
Proof.
  intros Hi. unfold Unsafe.store.
  destruct (Z.leb_spec 0 i), (Z.ltb_spec i (Unsafe.len d)); simpl; try lia.
  reflexivity.
Qed.

Lemma index_in_range d (i : Z) x :
  0 <= i < Unsafe.len d -> d !! Z.to_nat i = Some x -> Unsafe.index d i = Done x.
Proof.
  intros Hi Hx. unfold Unsafe.index.
  destruct (Z.leb_spec 0 i), (Z.ltb_spec i (Unsafe.len d)); simpl; try lia.
  by rewrite Hx.
Qed.

Lemma index_total d (i : Z) :
  0 <= i < Unsafe.len d -> exists x, d !! Z.to_nat i = Some x /\ Unsafe.index d i = Done x.
Proof.
  intros Hi. unfold Unsafe.len in Hi.
  destruct (lookup_lt_is_Some_2 d (Z.to_nat i)) as [x Hx]; [lia |].
  exists x. split; [exact Hx | by apply index_in_range].
Qed.

(** A queue that does not fill the buffer leaves [isFull] unset. *)
Lemma Rep_not_full r l :
  Rep r l -> Z.of_nat (length l) < Unsafe.len (Unsafe.data r) -> Unsafe.isFull r = false.
Proof.
  intros (_ & _ & _ & _ & _ & Hf & _) Hlt. rewrite Hf. apply Z.eqb_neq. lia.
Qed.

(** [Push] on a buffer with a free slot stores [x] behind the queue. *)
Lemma Push_Rep r l x :
  Rep r l -> Z.of_nat (length l) < Unsafe.len (Unsafe.data r) ->
  exists r', Unsafe.Push x r = Done ((Unsafe.Len r', None), r') /\
             Rep r' (l ++ [x]) /\
             Unsafe.len (Unsafe.data r') = Unsafe.len (Unsafe.data r) /\
             Unsafe.whenFull r' = Unsafe.whenFull r.
Proof.
  intros HR Hlt. pose proof (Rep_not_full r l HR Hlt) as Hnf.
  destruct HR as (Hcl & Hc & Hs & Hl & He & Hf & Hd).
  set (c := Unsafe.len (Unsafe.data r)) in *.
  assert (Hend : 0 <= Unsafe.end_ r < c).
  { rewrite He. apply mod_offset_range; lia. }
  unfold Unsafe.Push. rewrite Hcl, Hnf.
  rewrite store_in_range by exact Hend.
  cbn [mbind exec_mbind exec_bind Unsafe.set_data Unsafe.end_ Unsafe.data].
  rewrite len_insert. fold c.
  rewrite next_index by lia.
  cbn [mbind exec_mbind exec_bind].
  eexists. split; [reflexivity |].
  split; [| split; [cbn; apply len_insert | reflexivity]].
  unfold Rep. cbn. rewrite len_insert. fold c.
  rewrite length_app. cbn [length].
  replace (Z.of_nat (length l + 1)) with (Z.of_nat (length l) + 1) by lia.
  repeat split; try lia.
  - exact Hcl.
  - rewrite He. apply mod_offset_succ. lia.
  - rewrite He, mod_offset_succ by lia.
    rewrite mod_offset_start by lia.
    destruct (Z.eqb_spec (Z.of_nat (length l) + 1) 0); [lia | reflexivity].
  - intros i Hi.
    destruct (decide (i = length l)) as [-> | Hne].
    + rewrite <- He. rewrite list_lookup_insert_eq.
      * rewrite lookup_app_r by lia. by rewrite Nat.sub_diag.
      * unfold c, Unsafe.len in Hend. lia.
    + rewrite list_lookup_insert_ne.
      * rewrite lookup_app_l by lia. apply Hd. lia.
      * rewrite He. intros Heq. apply Z2Nat.inj in Heq.
        -- apply mod_offset_inj in Heq; lia.
        -- apply mod_offset_range; lia.
        -- apply mod_offset_range; lia.
Qed.

(** [Pop] on a buffer whose queue is [x :: l] returns [x] and leaves [l]. *)
Lemma Pop_Rep r x l :
  Rep r (x :: l) ->
  exists r', Unsafe.Pop zero r = Done ((x, Unsafe.Len r', None), r') /\
             Rep r' l /\
             Unsafe.len (Unsafe.data r') = Unsafe.len (Unsafe.data r) /\
             Unsafe.whenFull r' = Unsafe.whenFull r.
Proof.
  intros (Hcl & Hc & Hs & Hl & He & Hf & Hd).
  set (c := Unsafe.len (Unsafe.data r)) in *.
  cbn [length] in *.
  assert (Hx : Unsafe.data r !! Z.to_nat (Unsafe.start r) = Some x).
  { specialize (Hd 0%nat ltac:(lia)). cbn in Hd.
    rewrite Z.add_0_r, Z.mod_small in Hd by lia. exact Hd. }
  assert (Hne : negb (Unsafe.isFull r) && (Unsafe.start r =? Unsafe.end_ r) = false).
  { rewrite Hf, He, (Z.eqb_sym (Unsafe.start r)), mod_offset_start by lia.
    destruct (Z.eqb_spec (Z.of_nat (S (length l))) c),
             (Z.eqb_spec (Z.of_nat (S (length l))) 0); simpl; lia. }
  unfold Unsafe.Pop. rewrite Hcl, Hne.
  rewrite (index_in_range _ _ x) by (fold c; lia || exact Hx).
  cbn [mbind exec_mbind exec_bind]. fold c.
  rewrite next_index by lia.
  cbn [mbind exec_mbind exec_bind].
  eexists. split; [reflexivity |].
  split; [| split; reflexivity].
  unfold Rep. cbn. fold c.
  pose proof (next_index_range (Unsafe.start r) c ltac:(lia)).
  repeat split; try lia.
  - exact Hcl.
  - rewrite He, Z.add_mod_idemp_l by lia. f_equal. lia.
  - intros i Hi. rewrite Z.add_mod_idemp_l by lia.
    specialize (Hd (S i) ltac:(lia)).
    change ((x :: l) !! S i) with (l !! i) in Hd. rewrite <- Hd.
    do 3 f_equal. lia.
Qed.

End Steps.

(** ** Runs on a buffer that holds a known queue *)

Section Fifo.

Context {T : Type}.
Variable zero : T.
Context {W : Type}.

Implicit Types (r : @Unsafe.unsafeRQ T W) (l xs : list T) (x : T).

(** An open buffer whose indices coincide with [isFull] unset holds the
    empty queue. *)
Lemma Rep_empty r :
  Unsafe.closed r = false ->
  1 <= Unsafe.len (Unsafe.data r) <= intMax ->
  0 <= Unsafe.start r < Unsafe.len (Unsafe.data r) ->
  Unsafe.end_ r = Unsafe.start r ->
  Unsafe.isFull r = false ->
  Rep r [].
Proof.
  intros Hcl Hc Hs He Hf. unfold Rep. cbn [length].
  rewrite Z.add_0_r, Z.mod_small by lia.
  repeat split; try lia; try assumption.
  rewrite Hf. symmetry. apply Z.eqb_neq. lia.
Qed.

Lemma len_repeat (n : Z) : 0 <= n -> Unsafe.len (repeat zero (Z.to_nat n)) = n.
Proof. intros Hn. unfold Unsafe.len. rewrite repeat_length. lia. Qed.

(** A new buffer of capacity at least one holds the empty queue. *)
Lemma newUnsafe_Rep (capacity wf : Z) (oc : option (@Unsafe.OnCloseFunc T W)) :
  1 <= capacity <= intMax ->
  exists r, Unsafe.newUnsafe zero capacity wf oc = Done (r, None) /\
            Rep r [] /\
            Unsafe.len (Unsafe.data r) = capacity /\
            Unsafe.whenFull r = wf.
Proof.
  intros Hc. unfold Unsafe.newUnsafe, Unsafe.make.
  destruct (Z.ltb_spec capacity 0); [lia |].
  cbn [mbind exec_mbind exec_bind].
  eexists. split; [reflexivity |].
  split; [| split; [cbn; apply len_repeat; lia | reflexivity]].
  apply Rep_empty; cbn; rewrite ?len_repeat by lia; try lia; reflexivity.
Qed.

Lemma pushAll_Rep xs : forall r l,
  Rep r l ->
  Z.of_nat (length l) + Z.of_nat (length xs) <= Unsafe.len (Unsafe.data r) ->
  exists res r', pushAll xs r = Done (res, r') /\
                 map snd res = map (fun _ => None) xs /\
                 Rep r' (l ++ xs) /\
                 Unsafe.len (Unsafe.data r') = Unsafe.len (Unsafe.data r) /\
                 Unsafe.whenFull r' = Unsafe.whenFull r.
Proof.
  induction xs as [| x xs IH]; intros r l HR Hlen.
  - exists [], r. rewrite app_nil_r. split_and!; assumption || reflexivity.
  - cbn [length] in Hlen.
    destruct (Push_Rep r l x HR ltac:(lia)) as (r1 & HP & HR1 & Hc1 & Hw1).
    destruct (IH r1 (l ++ [x]) HR1) as (res & r2 & HA & Herr & HR2 & Hc2 & Hw2).
    { rewrite length_app, Hc1. cbn [length]. lia. }
    exists ((Unsafe.Len r1, None) :: res), r2.
    cbn [pushAll]. rewrite HP. cbn [mbind exec_mbind exec_bind]. rewrite HA.
    cbn [mbind exec_mbind exec_bind map snd].
    rewrite <- app_assoc in HR2. cbn [app] in HR2.
    split_and!; congruence || assumption.
Qed.

Lemma popN_Rep xs : forall r l,
  Rep r (xs ++ l) ->
  exists res r', popN zero (length xs) r = Done (res, r') /\
                 map elem_err res = map (fun x => (x, None)) xs /\
                 Rep r' l /\
                 Unsafe.len (Unsafe.data r') = Unsafe.len (Unsafe.data r) /\
                 Unsafe.whenFull r' = Unsafe.whenFull r.
Proof.
  induction xs as [| x xs IH]; intros r l HR.
  - exists [], r. split_and!; exact HR || reflexivity.
  - cbn [app] in HR.
    destruct (Pop_Rep zero r x (xs ++ l) HR) as (r1 & HP & HR1 & Hc1 & Hw1).
    destruct (IH r1 l HR1) as (res & r2 & HA & Hel & HR2 & Hc2 & Hw2).
    exists ((x, Unsafe.Len r1, None) :: res), r2.
    cbn [length popN]. rewrite HP. cbn [mbind exec_mbind exec_bind]. rewrite HA.
    cbn [mbind exec_mbind exec_bind map].
    split_and!; [reflexivity | by rewrite Hel | exact HR2 | congruence | congruence].
Qed.

(** [Pop] on a buffer that holds the empty queue changes nothing. *)
Lemma Pop_Rep_nil r :
  Rep r [] -> Unsafe.Pop zero r = Done ((zero, 0, Some ErrEmptyQueue), r).
Proof.
  intros (Hcl & Hc & Hs & _ & He & Hf & _). cbn [length] in *.
  rewrite Z.add_0_r, Z.mod_small in He by lia.
  unfold Unsafe.Pop. rewrite Hcl, Hf, He, Z.eqb_refl.
  change (Z.of_nat 0) with 0.
  destruct (Z.eqb_spec 0 (Unsafe.len (Unsafe.data r))); [lia | reflexivity].
Qed.

(** Popping until the first error returns the whole queue, oldest first. *)
Lemma drain_Rep l : forall r (fuel : nat),
  Rep r l -> (length l < fuel)%nat ->
  exists r', drain zero fuel r = Done (l, Some ErrEmptyQueue, r') /\ Rep r' [].
Proof.
  induction l as [| x l IH]; intros r fuel HR Hfuel;
    (destruct fuel as [| fuel]; [cbn in Hfuel; lia |]).
  - exists r. cbn [drain]. rewrite (Pop_Rep_nil r HR). split; [reflexivity | exact HR].
  - destruct (Pop_Rep zero r x l HR) as (r1 & HP & HR1 & _).
    destruct (IH r1 fuel HR1) as (r2 & HD & HR2); [cbn in Hfuel; lia |].
    exists r2. cbn [drain]. rewrite HP. cbn [mbind exec_mbind exec_bind].
    rewrite HD. split; [reflexivity | exact HR2].
Qed.

End Fifo.

(** ** The indices stay in range *)

Section Indices.

Context {T : Type}.
Variable zero : T.
Context {W : Type}.

Implicit Types (r : @Unsafe.unsafeRQ T W) (x : T) (c : Z).

Ltac idx := unfold Idx, step_ok; cbn; repeat split; solve [assumption | lia | auto].

Lemma Push_Idx c r x :
  1 <= c <= intMax -> Idx c r ->
  exists n err r', Unsafe.Push x r = Done ((n, err), r') /\ Idx c r' /\
    (err = None -> Unsafe.isFull r' = (Unsafe.end_ r' =? Unsafe.start r')).
Proof.
  intros Hc (Hcl & Hlen & Hs & He). unfold Unsafe.Push. rewrite Hcl.
  destruct (if Unsafe.isFull r then Unsafe.full_policy r else None) as [e |].
  - exists 0, (Some e), r. split_and!; [reflexivity | idx | discriminate].
  - rewrite store_in_range by lia.
    cbn [mbind exec_mbind exec_bind Unsafe.set_data Unsafe.end_ Unsafe.data].
    rewrite len_insert, Hlen, next_index by lia.
    cbn [mbind exec_mbind exec_bind].
    do 3 eexists. split; [reflexivity |].
    pose proof (next_index_range (Unsafe.end_ r) c He).
    split; [| reflexivity].
    unfold Idx. cbn. rewrite len_insert. idx.
Qed.

Lemma Pop_Idx c r :
  1 <= c <= intMax -> Idx c r ->
  exists res err r', Unsafe.Pop zero r = Done ((res, err), r') /\ Idx c r' /\
    (err = None -> Unsafe.isFull r' = false).
Proof.
  intros Hc (Hcl & Hlen & Hs & He). unfold Unsafe.Pop. rewrite Hcl.
  destruct (negb (Unsafe.isFull r) && (Unsafe.start r =? Unsafe.end_ r)).
  - exists (zero, 0), (Some ErrEmptyQueue), r.
    split_and!; [reflexivity | idx | discriminate].
  - destruct (index_total (Unsafe.data r) (Unsafe.start r)) as (x & _ & ->); [lia |].
    cbn [mbind exec_mbind exec_bind].
    rewrite Hlen, next_index by lia.
    cbn [mbind exec_mbind exec_bind].
    do 3 eexists. split; [reflexivity |].
    pose proof (next_index_range (Unsafe.start r) c Hs).
    split; [| reflexivity].
    idx.
Qed.

(** [Peek] returns and leaves the buffer as it is. *)
Lemma Peek_Idx c r :
  Idx c r -> exists res, Unsafe.Peek zero r = Done (res, r).
Proof.
  intros (Hcl & Hlen & Hs & He). unfold Unsafe.Peek. rewrite Hcl.
  destruct (negb (Unsafe.isFull r) && (Unsafe.start r =? Unsafe.end_ r)).
  - eexists. reflexivity.
  - destruct (index_total (Unsafe.data r) (Unsafe.start r)) as (x & _ & ->); [lia |].
    eexists. reflexivity.
Qed.

Lemma step_Idx c r (o : op) :
  1 <= c <= intMax -> Idx c r ->
  exists err r', step zero o r = Done (err, r') /\ Idx c r' /\ step_ok c (o, err, r').
Proof.
  intros Hc HI. destruct o as [x | |]; cbn [step].
  - destruct (Push_Idx c r x Hc HI) as (n & err & r' & -> & HI' & Hfull).
    exists err, r'. split_and!; [reflexivity | exact HI' |].
    destruct HI' as (_ & _ & ? & ?). idx.
  - destruct (Pop_Idx c r Hc HI) as ([y n] & err & r' & -> & HI' & Hfull).
    exists err, r'. split_and!; [reflexivity | exact HI' |].
    destruct HI' as (_ & _ & ? & ?). idx.
  - destruct (Peek_Idx c r HI) as ([[y n] err] & ->).
    exists err, r. split_and!; [reflexivity | exact HI |].
    destruct HI as (_ & _ & ? & ?). idx.
Qed.

Lemma run_Idx c (ops : list op) : forall r,
  1 <= c <= intMax -> Idx c r ->
  exists tr, run zero ops r = Done tr /\ length tr = length ops /\ Forall (step_ok c) tr.
Proof.
  induction ops as [| o ops IH]; intros r Hc HI.
  - exists []. split_and!; [reflexivity | reflexivity | constructor].
  - destruct (step_Idx c r o Hc HI) as (err & r1 & Hstep & HI1 & Hok).
    destruct (IH r1 Hc HI1) as (tr & Hrun & Hlen & Hall).
    exists ((o, err, r1) :: tr). cbn [run]. rewrite Hstep.
    cbn [mbind exec_mbind exec_bind]. rewrite Hrun.
    split_and!; [reflexivity | cbn; by rewrite Hlen | by constructor].
Qed.

Lemma newUnsafe_Idx (capacity wf : Z) (oc : option (@Unsafe.OnCloseFunc T W)) :
  1 <= capacity <= intMax ->
  exists r, Unsafe.newUnsafe zero capacity wf oc = Done (r, None) /\ Idx capacity r.
Proof.
  intros Hc. unfold Unsafe.newUnsafe, Unsafe.make.
  destruct (Z.ltb_spec capacity 0); [lia |].
  eexists. split; [reflexivity |].
  unfold Idx. cbn. rewrite len_repeat by lia. idx.
Qed.

End Indices.

(** ** The length that [Len] reports *)

Section Length.

Context {T : Type} {W : Type}.

Implicit Types (r : @Unsafe.unsafeRQ T W) (l : list T).

Lemma int_sub_small (a b : Z) :
  intMin <= a - b <= intMax -> int_sub a b = a - b.
Proof. apply wrap_small. Qed.

(** On a buffer that holds the queue [l], [Len] is the length of [l] as
    long as [end] has not wrapped behind [start]; once it has, [Len] adds
    the distance between the two to the capacity where it should take it
    off. *)
Lemma Len_Rep r l :
  Rep r l -> 2 * Unsafe.len (Unsafe.data r) <= intMax ->
  Unsafe.Len r =
    if Unsafe.end_ r <? Unsafe.start r
    then Unsafe.len (Unsafe.data r) + (Unsafe.start r - Unsafe.end_ r)
    else Z.of_nat (length l).
Proof.
  intros (Hcl & Hc & Hs & Hl & He & Hf & _) H2.
  set (c := Unsafe.len (Unsafe.data r)) in *.
  assert (Hend : 0 <= Unsafe.end_ r < c).
  { rewrite He. apply mod_offset_range; lia. }
  rewrite mod_once in He by lia.
  unfold Unsafe.Len. rewrite Hcl. fold c.
  rewrite (int_sub_small (Unsafe.end_ r)) by (unfold intMin, intMax in *; lia).
  rewrite Hf.
  destruct (Z.ltb_spec (Unsafe.end_ r) (Unsafe.start r)) as [Hlt | Hge].
  - destruct (Z.ltb_spec (Unsafe.end_ r - Unsafe.start r) 0); [| lia].
    cbn [orb]. rewrite int_sub_small by (unfold intMin, intMax in *; lia). lia.
  - destruct (Z.ltb_spec (Unsafe.end_ r - Unsafe.start r) 0); [lia |].
    cbn [orb].
    destruct (Z.ltb_spec (Unsafe.start r + Z.of_nat (length l)) c),
             (Z.eqb_spec (Unsafe.end_ r - Unsafe.start r) 0),
             (Z.eqb_spec (Z.of_nat (length l)) c); cbn [andb]; try lia.
    rewrite int_sub_small by (unfold intMin, intMax in *; lia). lia.
Qed.

End Length.

(** ** Closed, full and empty buffers *)

Section Errors.

Context {T : Type}.
Variable zero : T.
Context {W : Type}.

Implicit Types (r : @Unsafe.unsafeRQ T W) (x : T).

Lemma Push_closed r x :
  Unsafe.closed r = true -> Unsafe.Push x r = Done ((0, Some ErrClosed), r).
Proof. intros H. unfold Unsafe.Push. by rewrite H. Qed.

Lemma Pop_closed r :
  Unsafe.closed r = true -> Unsafe.Pop zero r = Done ((zero, 0, Some ErrClosed), r).
Proof. intros H. unfold Unsafe.Pop. by rewrite H. Qed.

Lemma Peek_closed r :
  Unsafe.closed r = true -> Unsafe.Peek zero r = Done ((zero, 0, Some ErrClosed), r).
Proof. intros H. unfold Unsafe.Peek. by rewrite H. Qed.

Lemma Len_Cap_closed r :
  Unsafe.closed r = true -> Unsafe.Len r = 0 /\ Unsafe.Cap r = 0.
Proof. intros H. unfold Unsafe.Len, Unsafe.Cap. by rewrite H. Qed.

Lemma IsFull_true r :
  Unsafe.IsFull r = true -> Unsafe.closed r = false /\ Unsafe.isFull r = true.
Proof. unfold Unsafe.IsFull. by destruct (Unsafe.closed r). Qed.

Lemma Pop_empty r :
  Unsafe.closed r = false -> Unsafe.isFull r = false ->
  Unsafe.start r = Unsafe.end_ r ->
  Unsafe.Pop zero r = Done ((zero, 0, Some ErrEmptyQueue), r).
Proof.
  intros Hcl Hf He. unfold Unsafe.Pop. by rewrite Hcl, Hf, He, Z.eqb_refl.
Qed.

Lemma Peek_empty r :
  Unsafe.closed r = false -> Unsafe.isFull r = false ->
  Unsafe.start r = Unsafe.end_ r ->
  Unsafe.Peek zero r = Done ((zero, 0, Some ErrEmptyQueue), r).
Proof.
  intros Hcl Hf He. unfold Unsafe.Peek. by rewrite Hcl, Hf, He, Z.eqb_refl.
Qed.

(** On a buffer that is not empty [Peek] and [Pop] read the same slot;
    [Peek] reports the length as it is and [Pop] the length that is left. *)
Lemma Peek_Pop_nonempty (c : Z) r :
  1 <= c <= intMax -> Idx c r ->
  ~ (Unsafe.isFull r = false /\ Unsafe.start r = Unsafe.end_ r) ->
  exists x r',
    Unsafe.Peek zero r = Done ((x, Unsafe.Len r, None), r) /\
    Unsafe.Pop zero r = Done ((x, Unsafe.Len r', None), r') /\
    r' = Unsafe.set_isFull false (Unsafe.set_start ((Unsafe.start r + 1) mod c) r).
Proof.
  intros Hc (Hcl & Hlen & Hs & He) Hne.
  assert (Hchk : negb (Unsafe.isFull r) && (Unsafe.start r =? Unsafe.end_ r) = false).
  { destruct (Unsafe.isFull r); [reflexivity |]. cbn.
    apply Z.eqb_neq. intros Heq. apply Hne. by split. }
  destruct (index_total (Unsafe.data r) (Unsafe.start r)) as (x & _ & Hx); [lia |].
  exists x. eexists.
  unfold Unsafe.Peek, Unsafe.Pop. rewrite Hcl, Hchk, Hx, Hlen.
  cbn [mbind exec_mbind exec_bind]. rewrite next_index by lia.
  cbn [mbind exec_mbind exec_bind].
  split_and!; reflexivity.
Qed.

End Errors.

(** ** Pushing onto a full buffer *)

Section Full.

Context {T : Type}.
Variable zero : T.
Context {W : Type}.

Implicit Types (r : @Unsafe.unsafeRQ T W) (l : list T) (x : T).

Lemma Push_full_error r x :
  Unsafe.IsFull r = true -> Unsafe.whenFull r = WhenFullError ->
  Unsafe.Push x r = Done ((0, Some ErrFullQueue), r).
Proof.
  intros HF Hw. destruct (IsFull_true r HF) as [Hcl Hf].
  unfold Unsafe.Push, Unsafe.full_policy. by rewrite Hcl, Hf, Hw.
Qed.

(** Under Overwrite a push onto a full buffer writes over the oldest slot
    and moves [end] alone: [start] stays on the slot just written, and
    the buffer now holds the queue of the new element only. *)
Lemma Push_overwrite_Rep r l x :
  Rep r l -> Z.of_nat (length l) = Unsafe.len (Unsafe.data r) ->
  Unsafe.whenFull r = WhenFullOverwrite ->
  exists r', Unsafe.Push x r = Done ((Unsafe.Len r', None), r') /\ Rep r' [x].
Proof.
  intros (Hcl & Hc & Hs & Hl & He & Hf & _) Hfull Hw.
  set (c := Unsafe.len (Unsafe.data r)) in *.
  rewrite Hfull, Z.eqb_refl in Hf.
  rewrite Hfull, mod_once in He by lia.
  destruct (Z.ltb_spec (Unsafe.start r + c) c) as [? | _]; [lia |].
  assert (Hend : Unsafe.end_ r = Unsafe.start r) by lia. clear He.
  unfold Unsafe.Push, Unsafe.full_policy. rewrite Hcl, Hf, Hw. cbn [Z.eqb WhenFullOverwrite WhenFullError].
  rewrite store_in_range by (fold c; lia).
  cbn [mbind exec_mbind exec_bind Unsafe.set_data Unsafe.end_ Unsafe.data].
  rewrite len_insert. fold c. rewrite next_index by lia.
  cbn [mbind exec_mbind exec_bind].
  eexists. split; [reflexivity |].
  unfold Rep. cbn. rewrite len_insert. fold c. rewrite Hend.
  split_and!; try lia; try assumption.
  - rewrite mod_offset_start by lia. reflexivity.
  - intros i Hi. assert (i = 0%nat) as -> by lia.
    rewrite Z.add_0_r, Z.mod_small by lia.
    apply list_lookup_insert_eq. unfold c, Unsafe.len in Hs. lia.
Qed.

End Full.

(** ** Closing *)

Section Closing.

Context {T : Type} {W : Type}.

Implicit Types (r : @Unsafe.unsafeRQ T W) (s : @Safe.safeRQ T W) (w : W) (e : @Safe.env W).

Lemma Close_no_error r w : fst (fst (Unsafe.Close r w)) = None.
Proof. unfold Unsafe.Close. by destruct (Unsafe.closeOnce r). Qed.

Lemma Close_again r w :
  Unsafe.closeOnce r = true -> Unsafe.Close r w = (None, r, w).
Proof. intros H. unfold Unsafe.Close. by rewrite H. Qed.

Lemma Close_first r w :
  Unsafe.closeOnce r = false ->
  exists r1, Unsafe.Close r w = (None, r1, Unsafe.finalized r w) /\
             Unsafe.closeOnce r1 = true /\ Unsafe.closed r1 = true /\
             Unsafe.data r1 = [].
Proof.
  intros H. unfold Unsafe.Close. rewrite H. cbn.
  eexists. split_and!; reflexivity.
Qed.

Lemma Safe_Close_no_error s e : fst (fst (Safe.Close s e)) = None.
Proof.
  unfold Safe.Close.
  pose proof (Close_no_error
    (Safe.rq (if Safe.closeOnce s then s
              else Safe.set_closedCh true (Safe.set_closeOnce true s)))
    (Safe.world e)) as H.
  destruct (Unsafe.Close _ _) as [[err r] w]. exact H.
Qed.

Lemma Safe_Close_again s e :
  Safe.closeOnce s = true -> Unsafe.closeOnce (Safe.rq s) = true ->
  Safe.Close s e = (None, s, e).
Proof.
  intros H1 H2. unfold Safe.Close. rewrite H1, (Close_again _ _ H2).
  by destruct s, e.
Qed.

Lemma Safe_Close_first s e :
  Safe.closeOnce s = false -> Unsafe.closeOnce (Safe.rq s) = false ->
  exists s1, Safe.Close s e = (None, s1, Safe.mkEnv (Safe.now e) (Unsafe.finalized (Safe.rq s) (Safe.world e))) /\
             Safe.closeOnce s1 = true /\ Safe.closedCh s1 = true /\
             Unsafe.closeOnce (Safe.rq s1) = true /\
             Unsafe.closed (Safe.rq s1) = true /\
             Unsafe.data (Safe.rq s1) = [].
Proof.
  intros H1 H2. unfold Safe.Close. rewrite H1.
  destruct (Close_first (Safe.rq s) (Safe.world e) H2) as (r1 & HC & Ho & Hc & Hd).
  cbn [Safe.rq Safe.set_closedCh Safe.set_closeOnce]. rewrite HC.
  eexists. split; [reflexivity |]. cbn. by split_and!.
Qed.

End Closing.

(** ** The coordinator after [Close] *)

Section ClosedCoordinator.

Context {T : Type}.
Variable zero : T.
Context {W : Type}.

Implicit Types (s : @Safe.safeRQ T W) (e : @Safe.env W) (x : T).

(** A [select] takes one of its ready cases, and takes one when one is
    ready. *)
Lemma pick_In {A : Type} (n : nat) (ready : list A) (a : A) :
  Safe.pick n ready = Some a -> In a ready.
Proof.
  unfold Safe.pick. intros H. apply list_elem_of_In.
  by apply list_elem_of_lookup_2 in H.
Qed.

Lemma pick_Some {A : Type} (n : nat) (ready : list A) :
  ready <> [] -> exists a, Safe.pick n ready = Some a.
Proof.
  intros H. unfold Safe.pick. apply lookup_lt_is_Some_2.
  apply Nat.mod_upper_bound. by destruct ready.
Qed.

Lemma Safe_Len_Cap_closed s :
  Unsafe.closed (Safe.rq s) = true -> Safe.Len s = 0 /\ Safe.Cap s = 0.
Proof. apply Len_Cap_closed. Qed.

Lemma Safe_Peek_closed s :
  Unsafe.closed (Safe.rq s) = true ->
  Safe.Peek zero s = Done ((zero, 0, Some ErrClosed), s).
Proof.
  intros H. unfold Safe.Peek. rewrite (Peek_closed zero _ H).
  cbn. by destruct s.
Qed.

(** Whatever case its [select] takes, [Push] on a closed coordinator
    returns [ErrClosed]. *)
Lemma Safe_Push_closed s x (choice : nat) :
  Unsafe.closed (Safe.rq s) = true ->
  exists s', Safe.Push choice x s = Done ((0, Some ErrClosed), s').
Proof.
  intros H. unfold Safe.Push, Safe.guardedPush. rewrite (Push_closed _ _ H).
  cbn [mbind exec_mbind exec_bind].
  destruct (Safe.whenEmpty _ =? WhenEmptyBlock); [| by eexists].
  destruct (Safe.pick _ _) as [[|] |]; by eexists.
Qed.

(** Under the Error empty-policy [Pop] turns the [ErrClosed] of the buffer
    into [ErrEmptyQueue]. *)
Lemma Safe_Pop_closed_error s e (sched : list nat) :
  Unsafe.closed (Safe.rq s) = true -> Safe.whenEmpty s = WhenEmptyError ->
  Safe.Pop zero sched s e = Done ((zero, 0, Some ErrEmptyQueue), s, e).
Proof.
  intros H Hw. unfold Safe.Pop, Safe.Pop_fuel, Safe.guardedPop.
  rewrite (Pop_closed zero _ H). cbn [mbind exec_mbind exec_bind Safe.whenEmpty Safe.set_rq].
  rewrite Hw. cbn. by destruct s.
Qed.

(** Under the Block empty-policy, with no deadline set and the close
    signal sent, [Pop] returns [ErrClosed] whatever its [select]s take. *)
Lemma Safe_Pop_fuel_closed_block (fuel : nat) : forall s e (sched : list nat),
  Unsafe.closed (Safe.rq s) = true -> Safe.whenEmpty s = WhenEmptyBlock ->
  Safe.closedCh s = true -> Safe.deadline s = 0 ->
  (Safe.available s = true -> (0 < fuel)%nat) ->
  exists s', Safe.Pop_fuel zero fuel sched s e = Done ((zero, 0, Some ErrClosed), s', e).
Proof.
  induction fuel as [| fuel IH]; intros [r cc co dl we av] e sched H Hw Hc Hd Hav;
    cbn in H, Hw, Hc, Hd, Hav; subst;
    cbn [Safe.Pop_fuel]; unfold Safe.guardedPop, Safe.deadline_done; cbn [Safe.rq];
    rewrite (Pop_closed zero _ H);
    cbn [mbind exec_mbind exec_bind Safe.whenEmpty Safe.set_rq Safe.rq Safe.closedCh
         Safe.closeOnce Safe.deadline Safe.available Z.eqb negb andb
         WhenEmptyBlock WhenEmptyError];
    rewrite app_nil_r.
  - destruct av; [specialize (Hav eq_refl); lia |]. cbn [app].
    destruct (pick_Some (hd 0%nat sched) [Safe.PopClosed]) as [a Ha]; [discriminate |].
    rewrite Ha. apply pick_In in Ha. cbn in Ha.
    destruct Ha as [<- | []]. by eexists.
  - destruct (pick_Some (hd 0%nat sched)
                ([Safe.PopClosed] ++ (if av then [Safe.PopAvailable] else [])))
      as [a Ha]; [discriminate |].
    rewrite Ha. apply pick_In in Ha.
    destruct a.
    + by eexists.
    + apply (IH (Safe.mkSafe r true co 0 1 false)); cbn; try done.
    + destruct av; cbn in Ha; intuition discriminate.
Qed.

Lemma Safe_Pop_closed_block s e (sched : list nat) :
  Unsafe.closed (Safe.rq s) = true -> Safe.whenEmpty s = WhenEmptyBlock ->
  Safe.closedCh s = true -> Safe.deadline s = 0 ->
  exists s', Safe.Pop zero sched s e = Done ((zero, 0, Some ErrClosed), s', e).
Proof.
  intros H Hw Hc Hd. apply Safe_Pop_fuel_closed_block; try assumption. lia.
Qed.

(** [Pop] calls itself only after it has taken the token of
    [available]: with no token the bound on the nested calls is never
    consulted, and one nested call is as good as any number. *)
Lemma Safe_Pop_fuel_no_token (fuel : nat) s e (sched : list nat) :
  Safe.available s = false ->
  Safe.Pop_fuel zero fuel sched s e = Safe.Pop_fuel zero 0 sched s e.
Proof.
  intros Hav. destruct fuel as [| fuel]; [reflexivity |].
  cbn [Safe.Pop_fuel]. unfold Safe.guardedPop.
  destruct (Unsafe.Pop zero (Safe.rq s)) as [[[[elem newLen] [err |]] r] | |];
    cbn [mbind exec_mbind exec_bind]; try reflexivity.
  destruct (Safe.whenEmpty _ =? WhenEmptyError); [reflexivity |].
  destruct (Safe.whenEmpty _ =? WhenEmptyBlock); [| reflexivity].
  cbn [Safe.available Safe.set_rq]. rewrite Hav. cbn [app].
  destruct (Safe.pick _ _) as [[| |] |] eqn:Hp; try reflexivity.
  apply pick_In, in_app_or in Hp. exfalso.
  destruct Hp as [Hp | Hp].
  - destruct (Safe.closedCh _); cbn in Hp; intuition discriminate.
  - destruct (Safe.deadline_done _ _); cbn in Hp; intuition discriminate.
Qed.

Lemma Safe_Pop_fuel_enough (fuel : nat) s e (sched : list nat) :
  Safe.Pop_fuel zero (S fuel) sched s e = Safe.Pop zero sched s e.
Proof.
  unfold Safe.Pop. cbn [Safe.Pop_fuel].
  destruct (Safe.guardedPop zero s) as [[[[elem newLen] [err |]] s1] | |];
    try reflexivity.
  destruct (Safe.whenEmpty _ =? WhenEmptyError); [reflexivity |].
  destruct (Safe.whenEmpty _ =? WhenEmptyBlock); [| reflexivity].
  destruct (Safe.pick _ _) as [[| |] |]; try reflexivity.
  rewrite (Safe_Pop_fuel_no_token fuel) by (by destruct s1).
  reflexivity.
Qed.

(** ** Deadlines *)

Lemma Safe_SetPopDeadline_error s (t : Z) :
  fst (Safe.SetPopDeadline t s) = Some ErrUnsupported <-> Safe.whenEmpty s <> WhenEmptyBlock.
Proof.
  unfold Safe.SetPopDeadline.
  destruct (Z.eqb_spec (Safe.whenEmpty s) WhenEmptyBlock); cbn; split; congruence.
Qed.

Lemma Safe_SetPopDeadline_ok s (t : Z) :
  fst (Safe.SetPopDeadline t s) = None <-> Safe.whenEmpty s = WhenEmptyBlock.
Proof.
  unfold Safe.SetPopDeadline.
  destruct (Z.eqb_spec (Safe.whenEmpty s) WhenEmptyBlock); cbn; split; congruence.
Qed.

Lemma Safe_SetPopDeadline_unchanged s (t : Z) :
  fst (Safe.SetPopDeadline t s) <> None -> snd (Safe.SetPopDeadline t s) = s.
Proof.
  unfold Safe.SetPopDeadline.
  destruct (Z.eqb_spec (Safe.whenEmpty s) WhenEmptyBlock); cbn; congruence.
Qed.

Lemma NewUnsafe_policy (capacity wf we : Z) (oc : option (@Unsafe.OnCloseFunc T W)) :
  we <> WhenEmptyError ->
  Unsafe.NewUnsafe zero capacity wf we oc = Done (None, Some ErrUnsupported).
Proof.
  intros H. unfold Unsafe.NewUnsafe.
  by destruct (Z.eqb_spec we WhenEmptyError).
Qed.

End ClosedCoordinator.

(** * The claims of the specification *)

(** C1 (the code departs from the claim). The claim: on every reachable
    open buffer of capacity at least 1, [Len] is [(end - start) mod capacity],
    or the capacity when [start = end] and [isFull] holds, and never exceeds
    the capacity.  The code at capacity 3 after three pushes and one pop:
    the buffer is open, [start = 1], [end = 0], two slots are occupied and
    [(end - start) mod capacity = 2], yet [Len] returns 4, above the
    capacity 3. *)
Theorem Len_past_capacity :
  exists r, Scenario.wrapped = Done r /\
            Unsafe.closed r = false /\
            Unsafe.Cap r = 3 /\
            Unsafe.start r = 1 /\ Unsafe.end_ r = 0 /\ Unsafe.isFull r = false /\
            (Unsafe.end_ r - Unsafe.start r) mod Unsafe.Cap r = 2 /\
            Unsafe.Len r = 4.
Proof. eexists. split; [reflexivity |]. by vm_compute. Qed.

(** C2 (the code departs from the claim). The claim: under Overwrite,
    pushing capacity + K elements and popping until empty yields the last
    capacity elements, oldest first, and the length reported after an
    overwriting push never exceeds the capacity.  The code at capacity 3:
    after the pushes 1, 2, 3, 4 popping until empty yields 4 alone; and an
    overwriting push made while [start] is on the last slot reports the
    length 5. *)
Theorem overwrite_keeps_newest_only :
  Scenario.overwrite_drain = Done ([4], Some ErrEmptyQueue) /\
  Scenario.overwrite_len = Done ((5, None), 3).
Proof. split; reflexivity. Qed.

(** C3. Whatever the capacity C >= 1 and wherever the indices of an empty
    buffer under the Error full-policy stand, pushing N <= C elements
    succeeds each time and popping N times then succeeds each time and
    returns the elements in the order they were pushed; and at capacity
    10, after pushing 0..7, popping five times (which yields 0, 1, 2, 3, 4)
    and pushing 100..106, popping until empty yields
    5, 6, 7, 100, 101, 102, 103, 104, 105, 106. *)
Theorem fifo_round_trip :
  (forall (T : Type) (zero : T) (W : Type) (r : @Unsafe.unsafeRQ T W) (xs : list T),
     Unsafe.closed r = false ->
     Unsafe.whenFull r = WhenFullError ->
     1 <= Unsafe.len (Unsafe.data r) <= intMax ->
     0 <= Unsafe.start r < Unsafe.len (Unsafe.data r) ->
     Unsafe.end_ r = Unsafe.start r ->
     Unsafe.isFull r = false ->
     Z.of_nat (length xs) <= Unsafe.len (Unsafe.data r) ->
     exists pushed r1 popped r2,
       pushAll xs r = Done (pushed, r1) /\
       map snd pushed = map (fun _ => None) xs /\
       popN zero (length xs) r1 = Done (popped, r2) /\
       map elem_err popped = map (fun x => (x, None)) xs) /\
  Scenario.push_pop =
    Done ([(0, None); (1, None); (2, None); (3, None); (4, None)],
          [None; None; None; None; None; None; None],
          [5; 6; 7; 100; 101; 102; 103; 104; 105; 106],
          Some ErrEmptyQueue).
Proof.
  split; [| reflexivity].
  intros T zero W r xs Hcl _ Hc Hs He Hf Hn.
  pose proof (Rep_empty r Hcl Hc Hs He Hf) as HR.
  destruct (pushAll_Rep xs r [] HR) as (pushed & r1 & HP & Herr & HR1 & _);
    [cbn [length]; lia |].
  cbn [app] in HR1. rewrite <- (app_nil_r xs) in HR1.
  destruct (popN_Rep zero xs r1 [] HR1) as (popped & r2 & HQ & Hel & _).
  exists pushed, r1, popped, r2. by split_and!.
Qed.

Lemma fifo_round_trip_witness :
  exists r pushed r1 popped r2,
    Scenario.emptied = Done r /\
    Unsafe.start r = 2 /\
    pushAll [8; 9] r = Done (pushed, r1) /\
    map snd pushed = [None; None] /\
    popN 0 2 r1 = Done (popped, r2) /\
    map elem_err popped = [(8, None); (9, None)].
Proof.
  set (r := Unsafe.mkRQ [1; 2; 0] false 2 2 WhenFullError false false
              (Some Scenario.record_close)).
  destruct (proj1 fifo_round_trip Z 0 Scenario.close_log r [8; 9])
    as (pushed & r1 & popped & r2 & H1 & H2 & H3 & H4).
  - reflexivity.
  - reflexivity.
  - vm_compute. split; intros ?; discriminate.
  - vm_compute. split; [intros ?; discriminate | reflexivity].
  - reflexivity.
  - reflexivity.
  - vm_compute. intros ?; discriminate.
  - exists r, pushed, r1, popped, r2.
    split; [reflexivity | split; [reflexivity | by split_and!]].
Defined.

(** C4 (the code departs from the claim). The claim: after [Close] every
    push, pop and peek, on the buffer and through the coordinator under
    every empty-policy, fails with [ErrClosed].  The code on a coordinator
    of capacity 1 built with the Error empty-policy and then closed: the
    buffer is closed and the close signal is sent, yet [Pop] returns
    [ErrEmptyQueue], whatever the schedule and the clock. *)
Theorem closed_pop_reports_empty :
  exists s, Scenario.closed_safe WhenEmptyError = Done s /\
            Unsafe.closed (Safe.rq s) = true /\
            Safe.closedCh s = true /\
            forall (sched : list nat) (e : @Safe.env Scenario.close_log),
              Safe.Pop 0 sched s e = Done ((0, 0, Some ErrEmptyQueue), s, e).
Proof.
  eexists. split; [reflexivity |]. split; [reflexivity |]. split; [reflexivity |].
  intros sched e. apply Safe_Pop_closed_error; reflexivity.
Qed.

(** Under the Block empty-policy the [select] of [Pop] on a closed
    coordinator has two ready cases once a deadline has passed: taking the
    close signal gives [ErrClosed], taking the deadline gives
    [DeadlineExceeded]. *)
Lemma Safe_Pop_closed_deadline :
  exists s, Scenario.closed_safe WhenEmptyBlock = Done s /\
    let s1 := snd (Safe.SetPopDeadline 5 s) in
    let e := Safe.mkEnv 7 [] in
    Safe.Pop 0 [0%nat] s1 e = Done ((0, 0, Some ErrClosed), s1, e) /\
    Safe.Pop 0 [1%nat] s1 e = Done ((0, 0, Some DeadlineExceeded), s1, e).
Proof. eexists. split; [reflexivity |]. split; reflexivity. Qed.

(** C5. Under the Error full-policy, [Push] on a full buffer returns
    [ErrFullQueue] and the buffer it leaves is the buffer it found: same
    backing store, [start], [end] and [isFull]. *)
Theorem push_full_rejected :
  forall (T W : Type) (r : @Unsafe.unsafeRQ T W) (x : T),
    Unsafe.IsFull r = true ->
    Unsafe.whenFull r = WhenFullError ->
    Unsafe.Push x r = Done ((0, Some ErrFullQueue), r).
Proof. intros T W r x. apply Push_full_error. Qed.

Lemma push_full_rejected_witness :
  exists r, Scenario.full_one = Done r /\
            Unsafe.data r = [7] /\
            Unsafe.Push 9 r = Done ((0, Some ErrFullQueue), r).
Proof.
  eexists. split; [reflexivity |]. split; [reflexivity |].
  apply push_full_rejected; reflexivity.
Defined.

(** C6, as stated, fails: on the buffer of capacity 2 that holds the one
    element 7, [Peek] and [Pop] do not return the same length ([Peek]
    returns 1, [Pop] returns 0). *)
Lemma peek_pop_lengths_differ :
  exists r, Scenario.one_of_two = Done r /\
            Unsafe.closed r = false /\
            ~ (Unsafe.isFull r = false /\ Unsafe.start r = Unsafe.end_ r) /\
            ~ (exists x n r', Unsafe.Peek 0 r = Done ((x, n, None), r) /\
                              Unsafe.Pop 0 r = Done ((x, n, None), r')).
Proof.
  eexists. split; [reflexivity |]. split; [reflexivity |]. split.
  - intros [_ H]. discriminate H.
  - intros (x & n & r' & HP & HQ).
    assert (n = 1) by (vm_compute in HP; congruence).
    assert (n = 0) by (vm_compute in HQ; congruence).
    congruence.
Qed.

(** C6, amended. On an open empty buffer ([start = end], [isFull] unset)
    [Pop] and [Peek] return [ErrEmptyQueue] and leave the buffer as it is.
    On an open buffer that is not empty [Peek] returns the element [Pop]
    returns and leaves the buffer as it is; [Peek] returns the length of
    the buffer as it is, [Pop] the length of the buffer it leaves, whose
    [start] has moved one slot on and whose [isFull] is unset. *)
Theorem peek_pop_agree :
  (forall (T : Type) (zero : T) (W : Type) (r : @Unsafe.unsafeRQ T W),
     Unsafe.closed r = false ->
     Unsafe.isFull r = false ->
     Unsafe.start r = Unsafe.end_ r ->
     Unsafe.Pop zero r = Done ((zero, 0, Some ErrEmptyQueue), r) /\
     Unsafe.Peek zero r = Done ((zero, 0, Some ErrEmptyQueue), r)) /\
  (forall (T : Type) (zero : T) (W : Type) (c : Z) (r : @Unsafe.unsafeRQ T W),
     1 <= c <= intMax ->
     Idx c r ->
     ~ (Unsafe.isFull r = false /\ Unsafe.start r = Unsafe.end_ r) ->
     exists x r',
       Unsafe.Peek zero r = Done ((x, Unsafe.Len r, None), r) /\
       Unsafe.Pop zero r = Done ((x, Unsafe.Len r', None), r') /\
       r' = Unsafe.set_isFull false
              (Unsafe.set_start ((Unsafe.start r + 1) mod c) r)).
Proof.
  split.
  - intros T zero W r Hcl Hf He. split.
    + by apply Pop_empty.
    + by apply Peek_empty.
  - intros T zero W c r. apply Peek_Pop_nonempty.
Qed.

Lemma peek_pop_agree_witness :
  (exists r, Scenario.emptied = Done r /\
             Unsafe.Pop 0 r = Done ((0, 0, Some ErrEmptyQueue), r) /\
             Unsafe.Peek 0 r = Done ((0, 0, Some ErrEmptyQueue), r)) /\
  (exists r x r', Scenario.one_of_two = Done r /\
                  Unsafe.Peek 0 r = Done ((x, Unsafe.Len r, None), r) /\
                  Unsafe.Pop 0 r = Done ((x, Unsafe.Len r', None), r') /\
                  r' = Unsafe.set_isFull false
                         (Unsafe.set_start ((Unsafe.start r + 1) mod 2) r)).
Proof.
  split.
  - eexists. split; [reflexivity |].
    apply (proj1 peek_pop_agree); reflexivity.
  - set (r := Unsafe.mkRQ [7; 0] false 0 1 WhenFullError false false
                (Some Scenario.record_close)).
    destruct (proj2 peek_pop_agree Z 0 Scenario.close_log 2 r)
      as (x & r' & H1 & H2 & H3).
    + vm_compute. split; intros ?; discriminate.
    + vm_compute. repeat split; intros ?; discriminate.
    + intros [_ H]. discriminate H.
    + exists r, x, r'. split; [reflexivity |]. by split_and!.
Defined.

(** C7. [Close] never returns an error, on the buffer and on the
    coordinator.  The first call sets [closed], hands the backing store,
    [start], [end] and [isFull] as they stand to the callback, if there is
    one, and releases the backing store; a call made once [closeOnce] is
    spent changes neither the queue nor the world, so the callback is not
    run again; and closing twice is closing once. *)
Theorem close_idempotent :
  (forall (T W : Type) (r : @Unsafe.unsafeRQ T W) (w : W),
     fst (fst (Unsafe.Close r w)) = None) /\
  (forall (T W : Type) (s : @Safe.safeRQ T W) (e : @Safe.env W),
     fst (fst (Safe.Close s e)) = None) /\
  (forall (T W : Type) (r : @Unsafe.unsafeRQ T W) (w : W),
     Unsafe.closeOnce r = false ->
     exists r1,
       Unsafe.Close r w = (None, r1, Unsafe.finalized r w) /\
       Unsafe.closed r1 = true /\
       Unsafe.data r1 = [] /\
       Unsafe.Close r1 (Unsafe.finalized r w) = (None, r1, Unsafe.finalized r w)) /\
  (forall (T W : Type) (s : @Safe.safeRQ T W) (e : @Safe.env W),
     Safe.closeOnce s = false ->
     Unsafe.closeOnce (Safe.rq s) = false ->
     exists s1 e1,
       Safe.Close s e = (None, s1, e1) /\
       Safe.world e1 = Unsafe.finalized (Safe.rq s) (Safe.world e) /\
       Safe.closedCh s1 = true /\
       Unsafe.closed (Safe.rq s1) = true /\
       Unsafe.data (Safe.rq s1) = [] /\
       Safe.Close s1 e1 = (None, s1, e1)).
Proof.
  split_and!.
  - intros T W. apply Close_no_error.
  - intros T W. apply Safe_Close_no_error.
  - intros T W r w H.
    destruct (Close_first r w H) as (r1 & HC & Ho & Hc & Hd).
    exists r1. split_and!; try assumption. by apply Close_again.
  - intros T W s e H1 H2.
    destruct (Safe_Close_first s e H1 H2) as (s1 & HC & Ho & Hch & Hro & Hc & Hd).
    eexists s1, _. split_and!; try eassumption; try reflexivity.
    by apply Safe_Close_again.
Qed.

Lemma close_idempotent_witness :
  (exists r r1 log,
     Scenario.wrapped = Done r /\
     log = [([1; 2; 3], 1, 0, false)] /\
     Unsafe.Close r [] = (None, r1, log) /\
     Unsafe.closed r1 = true /\
     Unsafe.data r1 = [] /\
     Unsafe.Close r1 log = (None, r1, log)) /\
  (exists s1 e1,
     Safe.Close (Safe.mkSafe
                   (Unsafe.mkRQ [1; 2; 3] false 1 0 WhenFullError false false
                      (Some Scenario.record_close))
                   false false 0 WhenEmptyBlock false)
                (Safe.mkEnv 0 []) = (None, s1, e1) /\
     Safe.world e1 = [([1; 2; 3], 1, 0, false)] /\
     Safe.closedCh s1 = true /\
     Unsafe.closed (Safe.rq s1) = true /\
     Unsafe.data (Safe.rq s1) = [] /\
     Safe.Close s1 e1 = (None, s1, e1)).
Proof.
  destruct close_idempotent as (_ & _ & HU & HS). split.
  - set (r := Unsafe.mkRQ [1; 2; 3] false 1 0 WhenFullError false false
                (Some Scenario.record_close)).
    destruct (HU Z Scenario.close_log r [] eq_refl) as (r1 & H1 & H2 & H3 & H4).
    exists r, r1, (Unsafe.finalized r []).
    split; [reflexivity |]. split; [reflexivity |]. by split_and!.
  - apply HS; reflexivity.
Defined.

(** C8. On a buffer of capacity at least 1, whatever its policy, every
    sequence of pushes, pops and peeks runs to its end, and after each call
    [start] and [end] are in [0, capacity); after a push that succeeded
    [isFull] is [end = start], after a pop that succeeded it is unset. *)
Theorem indices_in_range :
  forall (T : Type) (zero : T) (W : Type) (capacity wf : Z)
         (oc : option (@Unsafe.OnCloseFunc T W)) (ops : list (@op T)),
    1 <= capacity <= intMax ->
    exists r tr,
      Unsafe.newUnsafe zero capacity wf oc = Done (r, None) /\
      run zero ops r = Done tr /\
      length tr = length ops /\
      Forall (step_ok capacity) tr.
Proof.
  intros T zero W capacity wf oc ops Hc.
  destruct (newUnsafe_Idx zero capacity wf oc Hc) as (r & Hnew & HI).
  destruct (run_Idx zero capacity ops r Hc HI) as (tr & Hrun & Hlen & Hall).
  by exists r, tr.
Qed.

Lemma indices_in_range_witness :
  exists r tr,
    Unsafe.newUnsafe 0 2 WhenFullOverwrite (Some Scenario.record_close) = Done (r, None) /\
    run 0 [OpPush 1; OpPush 2; OpPush 3; OpPop; OpPeek; OpPop; OpPop] r = Done tr /\
    length tr = 7%nat /\
    Forall (step_ok 2) tr.
Proof.
  apply (indices_in_range Z 0 Scenario.close_log 2 WhenFullOverwrite
           (Some Scenario.record_close)
           [OpPush 1; OpPush 2; OpPush 3; OpPop; OpPeek; OpPop; OpPop]).
  vm_compute. split; intros ?; discriminate.
Defined.

(** C9. On the coordinator [SetPopDeadline] returns [ErrUnsupported]
    exactly when the empty-policy is not Block, and succeeds exactly when
    it is Block; when it fails the coordinator is left as it was.  On the
    buffer it always returns [ErrUnsupported] and changes nothing, and a
    buffer can be built through [NewUnsafe] with the Error empty-policy
    only. *)
Theorem deadline_unsupported_iff :
  (forall (T W : Type) (s : @Safe.safeRQ T W) (t : Z),
     (fst (Safe.SetPopDeadline t s) = Some ErrUnsupported
      <-> Safe.whenEmpty s <> WhenEmptyBlock) /\
     (fst (Safe.SetPopDeadline t s) = None
      <-> Safe.whenEmpty s = WhenEmptyBlock) /\
     (fst (Safe.SetPopDeadline t s) <> None -> snd (Safe.SetPopDeadline t s) = s)) /\
  (forall (T W : Type) (r : @Unsafe.unsafeRQ T W) (t : Z),
     Unsafe.SetPopDeadline t r = (Some ErrUnsupported, r)) /\
  (forall (T : Type) (zero : T) (W : Type) (capacity wf we : Z)
          (oc : option (@Unsafe.OnCloseFunc T W)),
     we <> WhenEmptyError ->
     Unsafe.NewUnsafe zero capacity wf we oc = Done (None, Some ErrUnsupported)).
Proof.
  split_and!.
  - intros T W s t. split_and!.
    + apply Safe_SetPopDeadline_error.
    + apply Safe_SetPopDeadline_ok.
    + apply Safe_SetPopDeadline_unchanged.
  - reflexivity.
  - intros T zero W. apply NewUnsafe_policy.
Qed.

Lemma deadline_unsupported_iff_witness :
  (exists s, Safe.NewSafe 0 4 WhenFullError WhenEmptyError (Some Scenario.record_close)
               = Done (Some s, None) /\
             Safe.SetPopDeadline 9 s = (Some ErrUnsupported, s)) /\
  (exists s, Safe.NewSafe 0 4 WhenFullError WhenEmptyBlock (Some Scenario.record_close)
               = Done (Some s, None) /\
             fst (Safe.SetPopDeadline 9 s) = None /\
             Safe.deadline (snd (Safe.SetPopDeadline 9 s)) = 9) /\
  Unsafe.NewUnsafe 0 4 WhenFullError WhenEmptyBlock (Some Scenario.record_close)
    = Done (None, Some ErrUnsupported).
Proof.
  destruct deadline_unsupported_iff as (HS & _ & HN). split_and!.
  - eexists. split; [reflexivity |].
    match goal with |- Safe.SetPopDeadline ?t ?s = _ =>
      destruct (HS Z Scenario.close_log s t) as (He & _ & Hu) end.
    apply injective_projections.
    + apply He. discriminate.
    + apply Hu. rewrite (proj2 He); discriminate.
  - eexists. split; [reflexivity |]. split; [| reflexivity].
    match goal with |- fst (Safe.SetPopDeadline ?t ?s) = _ =>
      destruct (HS Z Scenario.close_log s t) as (_ & Ho & _) end.
    by apply Ho.
  - apply HN. discriminate.
Defined.

(** C10, as stated, fails: [Push] on a new buffer of capacity 0 does not
    panic with a division by zero. *)
Lemma push_cap0_not_divide :
  ~ (exists r : @Unsafe.unsafeRQ Z Scenario.close_log,
       Unsafe.newUnsafe 0 0 WhenFullError None = Done (r, None) /\
       Unsafe.Push 5 r = Panic DivideByZero).
Proof.
  intros (r & Hnew & Hpush). vm_compute in Hnew.
  injection Hnew as <-. vm_compute in Hpush. discriminate Hpush.
Qed.

(** C10, amended. Building a queue of capacity 0 succeeds, through
    [newUnsafe], [NewUnsafe] and [NewSafe] alike, and no error is returned;
    every push on the open queue then panics, not with a division by zero
    but with an index out of range at the store [r.data[r.end] = elem],
    before [end] is advanced; [Pop] and [Peek] return [ErrEmptyQueue] and
    leave the buffer as it is, so that it stays in this state until it is
    closed. *)
Theorem push_cap0_panics :
  forall (T : Type) (zero : T) (W : Type) (wf : Z)
         (oc : option (@Unsafe.OnCloseFunc T W)) (x : T),
    exists r,
      Unsafe.newUnsafe zero 0 wf oc = Done (r, None) /\
      Unsafe.NewUnsafe zero 0 wf WhenEmptyError oc = Done (Some r, None) /\
      Unsafe.Cap r = 0 /\
      Unsafe.Push x r = Panic IndexOutOfRange /\
      Unsafe.Pop zero r = Done ((zero, 0, Some ErrEmptyQueue), r) /\
      Unsafe.Peek zero r = Done ((zero, 0, Some ErrEmptyQueue), r) /\
      (exists s, Safe.NewSafe zero 0 wf WhenEmptyError oc = Done (Some s, None) /\
                 Safe.rq s = r /\
                 forall choice : nat, Safe.Push choice x s = Panic IndexOutOfRange) /\
      (exists s, Safe.NewSafe zero 0 wf WhenEmptyBlock oc = Done (Some s, None) /\
                 Safe.rq s = r /\
                 forall choice : nat, Safe.Push choice x s = Panic IndexOutOfRange).
Proof.
  intros T zero W wf oc x. eexists.
  split; [reflexivity |]. split; [reflexivity |]. split; [reflexivity |].
  split; [reflexivity |]. split; [reflexivity |]. split; [reflexivity |].
  split; (eexists; split; [reflexivity |]; split; [reflexivity |]; intros choice; reflexivity).
Qed.

(** * Further properties of the code *)

(** ** The buffer as a bounded queue *)

Section Refinement.

Context {T : Type}.
Variable zero : T.
Context {W : Type}.

Implicit Types (r : @Unsafe.unsafeRQ T W) (l : list T) (x : T).

Lemma Peek_Rep r x l :
  Rep r (x :: l) -> Unsafe.Peek zero r = Done ((x, Unsafe.Len r, None), r).
Proof.
  intros (Hcl & Hc & Hs & Hl & He & Hf & Hd).
  set (c := Unsafe.len (Unsafe.data r)) in *.
  cbn [length] in *.
  assert (Hx : Unsafe.data r !! Z.to_nat (Unsafe.start r) = Some x).
  { specialize (Hd 0%nat ltac:(lia)). cbn in Hd.
    rewrite Z.add_0_r, Z.mod_small in Hd by lia. exact Hd. }
  assert (Hne : negb (Unsafe.isFull r) && (Unsafe.start r =? Unsafe.end_ r) = false).
  { rewrite Hf, He, (Z.eqb_sym (Unsafe.start r)), mod_offset_start by lia.
    destruct (Z.eqb_spec (Z.of_nat (S (length l))) c),
             (Z.eqb_spec (Z.of_nat (S (length l))) 0); simpl; lia. }
  unfold Unsafe.Peek. rewrite Hcl, Hne.
  rewrite (index_in_range _ _ x) by (fold c; lia || exact Hx).
  reflexivity.
Qed.

Lemma Peek_Rep_nil r :
  Rep r [] -> Unsafe.Peek zero r = Done ((zero, 0, Some ErrEmptyQueue), r).
Proof.
  intros (Hcl & Hc & Hs & _ & He & Hf & _). cbn [length] in *.
  rewrite Z.add_0_r, Z.mod_small in He by lia.
  apply Peek_empty; [exact Hcl | | congruence].
  rewrite Hf. apply Z.eqb_neq. lia.
Qed.

Lemma Rep_IsFull r l :
  Rep r l ->
  Unsafe.IsFull r = (Z.of_nat (length l) =? Unsafe.len (Unsafe.data r)).
Proof.
  intros (Hcl & _ & _ & _ & _ & Hf & _). unfold Unsafe.IsFull. by rewrite Hcl.
Qed.

Lemma call_Rep (o : @op T) r l :
  Rep r l -> Unsafe.whenFull r = WhenFullError ->
  exists r',
    call zero o r
      = Done (fst (queue_call zero (Z.to_nat (Unsafe.len (Unsafe.data r))) o l), r') /\
    Rep r' (snd (queue_call zero (Z.to_nat (Unsafe.len (Unsafe.data r))) o l)) /\
    Unsafe.len (Unsafe.data r') = Unsafe.len (Unsafe.data r) /\
    Unsafe.whenFull r' = Unsafe.whenFull r.
Proof.
  intros HR Hw. pose proof HR as (_ & Hc & _ & Hl & _).
  destruct o as [x | |]; cbn [call queue_call].
  - destruct (Nat.ltb_spec (length l) (Z.to_nat (Unsafe.len (Unsafe.data r)))) as [Hlt | Hge].
    + destruct (Push_Rep r l x HR ltac:(lia)) as (r' & -> & HR' & Hc' & Hw').
      exists r'. by split_and!.
    + rewrite (Push_full_error r x); [| rewrite (Rep_IsFull r l HR); apply Z.eqb_eq; lia | exact Hw].
      exists r. by split_and!.
  - destruct l as [| y l].
    + rewrite (Pop_Rep_nil zero r HR). exists r. by split_and!.
    + destruct (Pop_Rep zero r y l HR) as (r' & -> & HR' & Hc' & Hw').
      exists r'. by split_and!.
  - destruct l as [| y l].
    + rewrite (Peek_Rep_nil r HR). exists r. by split_and!.
    + rewrite (Peek_Rep r y l HR). exists r. by split_and!.
Qed.

Lemma calls_Rep (ops : list (@op T)) : forall r l,
  Rep r l -> Unsafe.whenFull r = WhenFullError ->
  exists r',
    calls zero ops r
      = Done (fst (queue_calls zero (Z.to_nat (Unsafe.len (Unsafe.data r))) ops l), r') /\
    Rep r' (snd (queue_calls zero (Z.to_nat (Unsafe.len (Unsafe.data r))) ops l)) /\
    Unsafe.len (Unsafe.data r') = Unsafe.len (Unsafe.data r).
Proof.
  induction ops as [| o ops IH]; intros r l HR Hw.
  - exists r. by split_and!.
  - destruct (call_Rep o r l HR Hw) as (r1 & Hcall & HR1 & Hc1 & Hw1).
    cbn [calls queue_calls]. rewrite Hcall. cbn [mbind exec_mbind exec_bind].
    destruct (queue_call zero _ o l) as [res l1]. cbn [fst snd] in *.
    destruct (IH r1 l1 HR1 ltac:(congruence)) as (r2 & Hcalls & HR2 & Hc2).
    rewrite Hc1 in Hcalls, HR2. rewrite Hcalls.
    destruct (queue_calls zero _ ops l1) as [rest l2]. cbn [fst snd] in *.
    exists r2. split_and!; [reflexivity | exact HR2 | congruence].
Qed.

End Refinement.

(** ** The state behind the queue *)

Section Occupancy.

Context {T : Type}.
Variable zero : T.
Context {W : Type}.

Implicit Types (r : @Unsafe.unsafeRQ T W) (l xs : list T) (x : T).

(** The number of elements held, read off the indices and the flag. *)
Lemma Rep_count r l :
  Rep r l ->
  Z.of_nat (length l) =
    if Unsafe.isFull r then Unsafe.len (Unsafe.data r)
    else (Unsafe.end_ r - Unsafe.start r) mod Unsafe.len (Unsafe.data r).
Proof.
  intros (_ & Hc & Hs & Hl & He & Hf & _).
  set (c := Unsafe.len (Unsafe.data r)) in *.
  rewrite Hf. destruct (Z.eqb_spec (Z.of_nat (length l)) c) as [Heq | Hne]; [exact Heq |].
  rewrite He, Zminus_mod_idemp_l.
  replace (Unsafe.start r + Z.of_nat (length l) - Unsafe.start r)
    with (Z.of_nat (length l)) by lia.
  symmetry. apply Z.mod_small. lia.
Qed.

(** What a push that goes through does to the fields. *)
Lemma Push_fields r x n r' :
  Unsafe.Push x r = Done ((n, None), r') ->
  Unsafe.data r' = <[Z.to_nat (Unsafe.end_ r) := x]> (Unsafe.data r) /\
  Unsafe.start r' = Unsafe.start r.
Proof.
  unfold Unsafe.Push. destruct (Unsafe.closed r); [discriminate |].
  destruct (if Unsafe.isFull r then Unsafe.full_policy r else None); [discriminate |].
  unfold Unsafe.store.
  destruct ((0 <=? Unsafe.end_ r) && (Unsafe.end_ r <? Unsafe.len (Unsafe.data r)));
    [| discriminate].
  cbn [mbind exec_mbind exec_bind Unsafe.set_data Unsafe.end_ Unsafe.data].
  destruct (int_rem _ _) as [e | |]; cbn [mbind exec_mbind exec_bind]; try discriminate.
  intros H. injection H as _ <-. by split.
Qed.

(** Pushing onto a buffer whose queue lies at the front of the backing
    store, with untouched slots behind it, extends that front. *)
Lemma pushAll_front xs : forall r l (m : nat),
  Rep r l -> Unsafe.start r = 0 ->
  Unsafe.data r = l ++ repeat zero m ->
  (length xs <= m)%nat ->
  exists res r', pushAll xs r = Done (res, r') /\
                 map snd res = map (fun _ => None) xs /\
                 Rep r' (l ++ xs) /\
                 Unsafe.start r' = 0 /\
                 Unsafe.data r' = (l ++ xs) ++ repeat zero (m - length xs).
Proof.
  induction xs as [| x xs IH]; intros r l m HR Hs Hd Hm.
  - exists [], r. rewrite !app_nil_r, Nat.sub_0_r. by split_and!.
  - cbn [length] in Hm. destruct m as [| m]; [lia |].
    assert (Hlen : Unsafe.len (Unsafe.data r) = Z.of_nat (length l + S m)).
    { unfold Unsafe.len. by rewrite Hd, length_app, repeat_length. }
    destruct (Push_Rep r l x HR ltac:(lia)) as (r1 & HP & HR1 & Hc1 & _).
    destruct (Push_fields r x _ r1 HP) as [Hd1 Hs1].
    assert (Hend : Unsafe.end_ r = Z.of_nat (length l)).
    { destruct HR as (_ & _ & _ & _ & He & _). rewrite He, Hs, Z.add_0_l.
      apply Z.mod_small. lia. }
    assert (Hd1' : Unsafe.data r1 = (l ++ [x]) ++ repeat zero m).
    { rewrite Hd1, Hd, Hend, Nat2Z.id. rewrite <- app_assoc. cbn [app repeat].
      rewrite insert_app_r_alt by lia. by rewrite Nat.sub_diag. }
    destruct (IH r1 (l ++ [x]) m HR1 ltac:(congruence) Hd1' ltac:(lia))
      as (res & r2 & HA & Herr & HR2 & Hs2 & Hd2).
    exists ((Unsafe.Len r1, None) :: res), r2.
    cbn [pushAll]. rewrite HP. cbn [mbind exec_mbind exec_bind]. rewrite HA.
    cbn [mbind exec_mbind exec_bind map snd length Nat.sub].
    rewrite <- app_assoc in HR2, Hd2. cbn [app] in HR2, Hd2.
    split_and!; try done.
    + by rewrite Herr.
    + rewrite Hd2, <- !app_assoc. reflexivity.
Qed.

(** The states of a run, and not only its last, have their indices in
    range over a backing store of the capacity: the store is never
    resized and the buffer stays open. *)
Lemma run_Idx_states (c : Z) (ops : list (@op T)) : forall r,
  1 <= c <= intMax -> Idx c r ->
  exists tr, run zero ops r = Done tr /\
             Forall (fun entry : @op T * option error * @Unsafe.unsafeRQ T W =>
                       Idx c (snd entry)) tr.
Proof.
  induction ops as [| o ops IH]; intros r Hc HI.
  - exists []. split; [reflexivity | constructor].
  - destruct (step_Idx zero c r o Hc HI) as (err & r1 & Hstep & HI1 & _).
    destruct (IH r1 Hc HI1) as (tr & Hrun & Hall).
    exists ((o, err, r1) :: tr). cbn [run]. rewrite Hstep.
    cbn [mbind exec_mbind exec_bind]. rewrite Hrun.
    split; [reflexivity | by constructor].
Qed.

(** While [start] is on slot 0 the lengths that the pushes return count
    the elements held. *)
Lemma pushAll_lengths xs : forall r l,
  Rep r l -> Unsafe.start r = 0 ->
  2 * Unsafe.len (Unsafe.data r) <= intMax ->
  Z.of_nat (length l) + Z.of_nat (length xs) <= Unsafe.len (Unsafe.data r) ->
  exists res r', pushAll xs r = Done (res, r') /\
                 res = map (fun k : nat => (Z.of_nat k, None)) (seq (S (length l)) (length xs)).
Proof.
  induction xs as [| x xs IH]; intros r l HR Hs H2 Hn.
  - exists [], r. by split.
  - cbn [length] in Hn.
    destruct (Push_Rep r l x HR ltac:(lia)) as (r1 & HP & HR1 & Hc1 & _).
    destruct (Push_fields r x _ r1 HP) as [_ Hs1].
    assert (HL : Unsafe.Len r1 = Z.of_nat (S (length l))).
    { rewrite (Len_Rep r1 (l ++ [x]) HR1) by lia.
      destruct HR1 as (_ & _ & _ & _ & He & _).
      assert (0 <= Unsafe.end_ r1).
      { rewrite He. apply Z.mod_pos_bound. lia. }
      destruct (Z.ltb_spec (Unsafe.end_ r1) (Unsafe.start r1)); [lia |].
      rewrite length_app. cbn [length]. lia. }
    destruct (IH r1 (l ++ [x]) HR1 ltac:(congruence) ltac:(lia)) as (res & r2 & HA & Hres).
    { rewrite length_app, Hc1. cbn [length]. lia. }
    exists ((Unsafe.Len r1, None) :: res), r2.
    cbn [pushAll]. rewrite HP. cbn [mbind exec_mbind exec_bind]. rewrite HA.
    split; [reflexivity |].
    rewrite Hres, HL, length_app. cbn [length seq map].
    replace (length l + 1)%nat with (S (length l)) by lia. reflexivity.
Qed.

End Occupancy.

(** ** The loop of [simRQ]: a sliding window *)

Section Window.

Context {T : Type}.
Variable zero : T.
Context {W : Type}.

Implicit Types (r : @Unsafe.unsafeRQ T W) (l : list T) (x : T).

(** Popping when the buffer is full and then pushing drops the oldest
    element of a full queue, and no element otherwise, whatever the
    full-policy. *)
Lemma simRQ_step_Rep r l x :
  Rep r l ->
  exists r', simRQ_step zero x r = Done r' /\
             Rep r' (if Z.of_nat (length l) =? Unsafe.len (Unsafe.data r)
                     then tail l ++ [x] else l ++ [x]) /\
             Unsafe.len (Unsafe.data r') = Unsafe.len (Unsafe.data r).
Proof.
  intros HR. pose proof HR as (_ & Hc & _ & Hl & _).
  unfold simRQ_step. rewrite (Rep_IsFull r l HR).
  destruct (Z.eqb_spec (Z.of_nat (length l)) (Unsafe.len (Unsafe.data r))) as [Heq | Hne].
  - destruct l as [| y l]; [cbn in Heq; lia |].
    destruct (Pop_Rep zero r y l HR) as (r1 & -> & HR1 & Hc1 & _).
    cbn [mbind exec_mbind exec_bind].
    destruct (Push_Rep r1 l x HR1) as (r2 & -> & HR2 & Hc2 & _);
      [cbn [length] in Heq; lia |].
    exists r2. cbn [tail]. split_and!; [reflexivity | exact HR2 | congruence].
  - cbn [mbind exec_mbind exec_bind].
    destruct (Push_Rep r l x HR ltac:(lia)) as (r1 & -> & HR1 & Hc1 & _).
    exists r1. by split_and!.
Qed.

End Window.

(** The last [min k c] of the numbers [0 .. k - 1], oldest first. *)
Lemma window_length (k c : nat) :
  length (map Z.of_nat (seq (k - c) (min k c))) = min k c.
Proof. by rewrite length_map, length_seq. Qed.

Lemma window_next (k c : nat) :
  (1 <= c)%nat ->
  (if Z.of_nat (length (map Z.of_nat (seq (k - c) (min k c)))) =? Z.of_nat c
   then tail (map Z.of_nat (seq (k - c) (min k c))) ++ [Z.of_nat k]
   else map Z.of_nat (seq (k - c) (min k c)) ++ [Z.of_nat k])
  = map Z.of_nat (seq (S k - c) (min (S k) c)).
Proof.
  intros Hc. rewrite window_length.
  destruct (Z.eqb_spec (Z.of_nat (min k c)) (Z.of_nat c)) as [Heq | Hne].
  - assert (c <= k)%nat by lia.
    replace (min k c) with (S (c - 1)) by lia.
    replace (min (S k) c) with (S (c - 1)) by lia.
    replace (S k - c)%nat with (S (k - c)) by lia.
    rewrite (seq_S (c - 1) (S (k - c))), map_app. cbn [seq map tail].
    do 3 f_equal. lia.
  - assert (k < c)%nat by lia.
    replace (min k c) with k by lia.
    replace (min (S k) c) with (S k) by lia.
    replace (S k - c)%nat with 0%nat by lia.
    replace (k - c)%nat with 0%nat by lia.
    rewrite seq_S, map_app. reflexivity.
Qed.

Lemma simRQ_loop_Rep (iterations : nat) : forall (k : nat) (r : @Unsafe.unsafeRQ Z unit),
  Rep r (map Z.of_nat (seq (k - Z.to_nat (Unsafe.len (Unsafe.data r)))
                           (min k (Z.to_nat (Unsafe.len (Unsafe.data r)))))) ->
  Z.of_nat (k + iterations) <= intMax ->
  exists r',
    simRQ_loop iterations (Z.of_nat k) r = Done r' /\
    Unsafe.len (Unsafe.data r') = Unsafe.len (Unsafe.data r) /\
    Rep r' (map Z.of_nat
              (seq (k + iterations - Z.to_nat (Unsafe.len (Unsafe.data r)))
                   (min (k + iterations) (Z.to_nat (Unsafe.len (Unsafe.data r)))))).
Proof.
  induction iterations as [| i IH]; intros k r HR Hk.
  - exists r. rewrite Nat.add_0_r. by split_and!.
  - pose proof HR as (_ & Hc & _).
    destruct (simRQ_step_Rep 0 r _ (Z.of_nat k) HR) as (r1 & Hstep & HR1 & Hc1).
    set (c := Z.to_nat (Unsafe.len (Unsafe.data r))) in *.
    replace (Unsafe.len (Unsafe.data r)) with (Z.of_nat c) in HR1 by lia.
    rewrite window_next in HR1 by lia.
    cbn [simRQ_loop]. rewrite Hstep. cbn [mbind exec_mbind exec_bind].
    unfold int_add. rewrite wrap_small by (unfold intMin, intMax in *; lia).
    replace (Z.of_nat k + 1) with (Z.of_nat (S k)) by lia.
    destruct (IH (S k) r1) as (r2 & Hloop & Hc2 & HR2).
    + rewrite Hc1. exact HR1.
    + lia.
    + exists r2. rewrite Hc1 in Hc2, HR2. fold c in HR2.
      replace (k + S i)%nat with (S k + i)%nat by lia.
      by split_and!.
Qed.

(** ** [eqSlices] decides equality *)

Section EqSlicesSpec.

Context {T : Type} `{EqDecision T}.



End EqSlicesSpec.

(** ** The coordinator while it is open *)

Section OpenCoordinator.

Context {T : Type}.
Variable zero : T.
Context {W : Type}.

Implicit Types (s : @Safe.safeRQ T W) (e : @Safe.env W) (x : T) (l : list T).

Ltac deadline_met :=
  eexists; split;
  [ cbn; do 2 f_equal; first [rewrite Z.max_l by lia | rewrite Z.max_r by lia]; reflexivity
  | split; reflexivity ].

Lemma pick_singleton {A : Type} (n : nat) (a : A) : Safe.pick n [a] = Some a.
Proof. unfold Safe.pick. cbn [length]. by rewrite Nat.mod_1_r. Qed.

Lemma pick_nil {A : Type} (n : nat) : Safe.pick n (@nil A) = None.
Proof. unfold Safe.pick. apply lookup_nil. Qed.

(** With the close signal not sent, [Push] returns what the buffer's
    [Push] returns, the length being 0 when there is an error, and under
    the Block empty-policy the token of [available] is there afterwards,
    whether the push went through or not. *)
Lemma Safe_Push_open s x (choice : nat) n err r' :
  Safe.closedCh s = false ->
  Unsafe.Push x (Safe.rq s) = Done ((n, err), r') ->
  Safe.Push choice x s =
    Done ((match err with Some _ => 0 | None => n end, err),
          if Safe.whenEmpty s =? WhenEmptyBlock
          then Safe.set_available true (Safe.set_rq r' s)
          else Safe.set_rq r' s).
Proof.
  intros Hc HP. unfold Safe.Push, Safe.guardedPush. rewrite HP.
  destruct s as [r cc co dl we av]. cbn in Hc. subst cc.
  destruct err as [err |];
    cbn [mbind exec_mbind exec_bind Safe.whenEmpty Safe.set_rq Safe.closedCh
         Safe.available Safe.closeOnce Safe.deadline Safe.rq];
    (destruct (we =? WhenEmptyBlock); [| reflexivity]);
    destruct av; cbn [app]; rewrite ?pick_nil, ?pick_singleton; reflexivity.
Qed.

(** On a buffer that holds [x :: l], [Pop] returns [x] at once: no
    [select] is run, the token and the clock are left alone. *)
Lemma Safe_Pop_nonempty s e x l (sched : list nat) :
  Rep (Safe.rq s) (x :: l) ->
  exists r', Unsafe.Pop zero (Safe.rq s) = Done ((x, Unsafe.Len r', None), r') /\
             Rep r' l /\
             Safe.Pop zero sched s e = Done ((x, Unsafe.Len r', None), Safe.set_rq r' s, e).
Proof.
  intros HR. destruct (Pop_Rep zero _ x l HR) as (r' & HP & HR' & _).
  exists r'. split_and!; try assumption.
  unfold Safe.Pop, Safe.Pop_fuel, Safe.guardedPop. by rewrite HP.
Qed.

(** On an empty buffer under the Block empty-policy, the close signal not
    sent: with no deadline set [Pop] blocks; with a deadline set it
    returns [DeadlineExceeded], not before the deadline, and leaves the
    buffer as it is.  A token left in [available] is taken and the pop
    tried again first. *)
Lemma Safe_Pop_fuel_empty_block (fuel : nat) : forall s e (sched : list nat),
  Rep (Safe.rq s) [] -> Safe.whenEmpty s = WhenEmptyBlock ->
  Safe.closedCh s = false ->
  (Safe.available s = true -> (0 < fuel)%nat) ->
  if Safe.deadline s =? 0
  then Safe.Pop_fuel zero fuel sched s e = Blocked
  else exists s', Safe.Pop_fuel zero fuel sched s e
                  = Done ((zero, 0, Some DeadlineExceeded), s',
                          Safe.mkEnv (Z.max (Safe.now e) (Safe.deadline s)) (Safe.world e)) /\
                  Safe.rq s' = Safe.rq s /\ Safe.deadline s' = Safe.deadline s.
Proof.
  induction fuel as [| fuel IH]; intros [r cc co dl we av] [t w] sched HR Hw Hc Hav;
    cbn in HR, Hw, Hc, Hav; subst;
    cbn [Safe.Pop_fuel]; unfold Safe.guardedPop, Safe.deadline_done; cbn [Safe.rq];
    rewrite (Pop_Rep_nil zero _ HR);
    cbn [mbind exec_mbind exec_bind Safe.whenEmpty Safe.set_rq Safe.rq Safe.closedCh
         Safe.closeOnce Safe.deadline Safe.available Safe.now Safe.world Z.eqb
         WhenEmptyBlock WhenEmptyError app].
  - destruct av; [specialize (Hav eq_refl); lia |]. cbn [app].
    destruct (Z.eqb_spec dl 0) as [-> | Hdl]; cbn [negb andb].
    + by rewrite pick_nil.
    + destruct (Z.leb_spec dl t).
      * rewrite pick_singleton. by deadline_met.
      * rewrite pick_nil. by deadline_met.
  - destruct av; cbn [app].
    + destruct (pick_Some (hd 0%nat sched)
                  (Safe.PopAvailable
                   :: (if negb (dl =? 0) && (dl <=? t) then [Safe.PopDeadline] else [])))
        as [a Ha]; [discriminate |].
      rewrite Ha. apply pick_In in Ha.
      destruct a.
      * exfalso. destruct (negb (dl =? 0) && (dl <=? t)); cbn in Ha; intuition discriminate.
      * specialize (IH (Safe.mkSafe r false co dl 1 false) (Safe.mkEnv t w) (tl sched)
                       HR eq_refl eq_refl ltac:(discriminate)).
        cbn [Safe.deadline Safe.now Safe.world Safe.rq] in IH.
        destruct (dl =? 0); exact IH.
      * destruct (Z.eqb_spec dl 0) as [-> | Hdl]; cbn [negb andb] in Ha;
          [cbn in Ha; intuition discriminate |].
        destruct (Z.leb_spec dl t); [| cbn in Ha; intuition discriminate].
        by deadline_met.
    + destruct (Z.eqb_spec dl 0) as [-> | Hdl]; cbn [negb andb].
      * by rewrite pick_nil.
      * destruct (Z.leb_spec dl t).
        -- rewrite pick_singleton. by deadline_met.
        -- rewrite pick_nil. by deadline_met.
Qed.

(** Under the Error empty-policy [Pop] on an empty buffer returns
    [ErrEmptyQueue] at once. *)
Lemma Safe_Pop_empty_error s e (sched : list nat) :
  Rep (Safe.rq s) [] -> Safe.whenEmpty s = WhenEmptyError ->
  Safe.Pop zero sched s e = Done ((zero, 0, Some ErrEmptyQueue), s, e).
Proof.
  intros HR Hw. unfold Safe.Pop, Safe.Pop_fuel, Safe.guardedPop.
  rewrite (Pop_Rep_nil zero _ HR).
  cbn [mbind exec_mbind exec_bind Safe.whenEmpty Safe.set_rq]. rewrite Hw.
  cbn. by destruct s.
Qed.

End OpenCoordinator.

(** * Further properties, one by one *)

(** X1. On an open buffer that holds n elements [Len] returns n as long
    as [end] is not behind [start]; when [end] has wrapped behind [start]
    it returns the capacity plus [start - end]. *)
Theorem Len_counts_until_wrap :
  forall (T W : Type) (r : @Unsafe.unsafeRQ T W) (l : list T),
    Rep r l ->
    2 * Unsafe.len (Unsafe.data r) <= intMax ->
    Unsafe.Len r =
      if Unsafe.end_ r <? Unsafe.start r
      then Unsafe.len (Unsafe.data r) + (Unsafe.start r - Unsafe.end_ r)
      else Z.of_nat (length l).
Proof. intros T W r l. apply Len_Rep. Qed.

Lemma Len_counts_until_wrap_witness :
  Unsafe.Len (Unsafe.mkRQ (W := unit) [7; 8; 9; 0] false 1 3 WhenFullError false false None) = 2 /\
  Unsafe.Len (Unsafe.mkRQ (W := unit) [7; 8; 9; 6] false 3 1 WhenFullError false false None) = 6.
Proof.
  split.
  - apply (Len_counts_until_wrap Z unit
             (Unsafe.mkRQ [7; 8; 9; 0] false 1 3 WhenFullError false false None) [8; 9]).
    + unfold Rep. cbn. split_and!; try reflexivity; try (vm_compute; congruence).
      intros [| [| i]] Hi; cbn in Hi; try lia; reflexivity.
    + vm_compute. congruence.
  - apply (Len_counts_until_wrap Z unit
             (Unsafe.mkRQ [7; 8; 9; 6] false 3 1 WhenFullError false false None) [6; 7]).
    + unfold Rep. cbn. split_and!; try reflexivity; try (vm_compute; congruence).
      intros [| [| i]] Hi; cbn in Hi; try lia; reflexivity.
    + vm_compute. congruence.
Defined.

(** X2. Under the Error full-policy a new buffer of capacity c >= 1 is a
    bounded queue: whatever the sequence of pushes, pops and peeks, every
    call returns, with the element and the error that the same call
    returns on a list of at most c elements (push onto c elements:
    [ErrFullQueue]; pop or peek on none: [ErrEmptyQueue]; else the oldest
    element first), and the buffer holds that list afterwards. *)
Theorem bounded_queue_refinement :
  forall (T : Type) (zero : T) (W : Type) (capacity : Z)
         (oc : option (@Unsafe.OnCloseFunc T W)) (ops : list (@op T)),
    1 <= capacity <= intMax ->
    exists r r',
      Unsafe.newUnsafe zero capacity WhenFullError oc = Done (r, None) /\
      calls zero ops r
        = Done (fst (queue_calls zero (Z.to_nat capacity) ops []), r') /\
      Rep r' (snd (queue_calls zero (Z.to_nat capacity) ops [])).
Proof.
  intros T zero W capacity oc ops Hc.
  destruct (newUnsafe_Rep zero capacity WhenFullError oc Hc) as (r & Hnew & HR & Hlen & Hw).
  destruct (calls_Rep zero ops r [] HR Hw) as (r' & Hcalls & HR' & _).
  rewrite Hlen in Hcalls, HR'. by exists r, r'.
Qed.

Lemma bounded_queue_refinement_witness :
  exists r r',
    Unsafe.newUnsafe (W := unit) 0 2 WhenFullError None = Done (r, None) /\
    calls 0 [OpPop; OpPush 5; OpPush 6; OpPush 7; OpPeek; OpPop; OpPush 8; OpPop; OpPop; OpPop] r
      = Done ([(0, Some ErrEmptyQueue); (0, None); (0, None); (0, Some ErrFullQueue);
               (5, None); (5, None); (0, None); (6, None); (8, None);
               (0, Some ErrEmptyQueue)], r') /\
    Rep r' [].
Proof.
  apply (bounded_queue_refinement Z 0 unit 2 None
           [OpPop; OpPush 5; OpPush 6; OpPush 7; OpPeek; OpPop; OpPush 8; OpPop; OpPop; OpPop]).
  vm_compute. split; congruence.
Defined.

(** X3. Under the Error full-policy, after any sequence of pushes, pops
    and peeks on a new buffer of capacity c >= 1, the number of elements
    held is c when [isFull] is set and [(end - start) mod c] otherwise,
    and [IsFull] tells whether it is c. *)
Theorem occupancy_from_indices :
  forall (T : Type) (zero : T) (W : Type) (capacity : Z)
         (oc : option (@Unsafe.OnCloseFunc T W)) (ops : list (@op T)),
    1 <= capacity <= intMax ->
    exists r res r',
      Unsafe.newUnsafe zero capacity WhenFullError oc = Done (r, None) /\
      calls zero ops r = Done (res, r') /\
      Z.of_nat (length (snd (queue_calls zero (Z.to_nat capacity) ops []))) =
        (if Unsafe.isFull r' then capacity
         else (Unsafe.end_ r' - Unsafe.start r') mod capacity) /\
      Unsafe.IsFull r' =
        (Z.of_nat (length (snd (queue_calls zero (Z.to_nat capacity) ops []))) =? capacity).
Proof.
  intros T zero W capacity oc ops Hc.
  destruct (newUnsafe_Rep zero capacity WhenFullError oc Hc) as (r & Hnew & HR & Hlen & Hw).
  destruct (calls_Rep zero ops r [] HR Hw) as (r' & Hcalls & HR' & Hlen').
  rewrite Hlen in Hcalls, HR', Hlen'.
  eexists r, _, r'. split_and!; try eassumption.
  - rewrite (Rep_count r' _ HR'), Hlen'. reflexivity.
  - rewrite (Rep_IsFull r' _ HR'), Hlen'. reflexivity.
Qed.

Lemma occupancy_from_indices_witness :
  exists r res r',
    Unsafe.newUnsafe (W := unit) 0 3 WhenFullError None = Done (r, None) /\
    calls 0 [OpPush 1; OpPush 2; OpPush 3; OpPop; OpPop; OpPush 4] r = Done (res, r') /\
    2 = (if Unsafe.isFull r' then 3 else (Unsafe.end_ r' - Unsafe.start r') mod 3) /\
    Unsafe.IsFull r' = false.
Proof.
  apply (occupancy_from_indices Z 0 unit 3 None
           [OpPush 1; OpPush 2; OpPush 3; OpPop; OpPop; OpPush 4]).
  vm_compute. split; congruence.
Defined.

(** X4. Under the Overwrite full-policy, once a new buffer of capacity
    c >= 1 has been filled by c pushes, the next push succeeds and leaves
    the pushed element as the only one held: popping until empty then
    returns that element alone. *)
Theorem overwrite_push_on_full :
  forall (T : Type) (zero : T) (W : Type) (capacity : Z)
         (oc : option (@Unsafe.OnCloseFunc T W)) (xs : list T) (x : T),
    1 <= capacity <= intMax ->
    Z.of_nat (length xs) = capacity ->
    exists r pushed r1 n r2 r3,
      Unsafe.newUnsafe zero capacity WhenFullOverwrite oc = Done (r, None) /\
      pushAll xs r = Done (pushed, r1) /\
      map snd pushed = map (fun _ => None) xs /\
      Unsafe.IsFull r1 = true /\
      Unsafe.Push x r1 = Done ((n, None), r2) /\
      drain zero 2 r2 = Done ([x], Some ErrEmptyQueue, r3).
Proof.
  intros T zero W capacity oc xs x Hc Hn.
  destruct (newUnsafe_Rep zero capacity WhenFullOverwrite oc Hc) as (r & Hnew & HR & Hlen & Hw).
  destruct (pushAll_Rep xs r [] HR) as (pushed & r1 & HP & Herr & HR1 & Hlen1 & Hw1);
    [cbn [length]; lia |].
  cbn [app] in HR1.
  destruct (Push_overwrite_Rep r1 xs x HR1 ltac:(lia) ltac:(congruence)) as (r2 & HP2 & HR2).
  destruct (drain_Rep zero [x] r2 2 HR2 ltac:(cbn; lia)) as (r3 & HD & _).
  exists r, pushed, r1, (Unsafe.Len r2), r2, r3. split_and!; try assumption.
  rewrite (Rep_IsFull r1 xs HR1). apply Z.eqb_eq. lia.
Qed.

Lemma overwrite_push_on_full_witness :
  exists r pushed r1 n r2 r3,
    Unsafe.newUnsafe (W := unit) 0 3 WhenFullOverwrite None = Done (r, None) /\
    pushAll [1; 2; 3] r = Done (pushed, r1) /\
    map snd pushed = [None; None; None] /\
    Unsafe.IsFull r1 = true /\
    Unsafe.Push 4 r1 = Done ((n, None), r2) /\
    drain 0 2 r2 = Done ([4], Some ErrEmptyQueue, r3).
Proof.
  apply (overwrite_push_on_full Z 0 unit 3 None [1; 2; 3] 4).
  - vm_compute. split; congruence.
  - reflexivity.
Defined.

(** X5. The constructors take any value as full-policy.  With a value
    that is neither Error nor Overwrite the pushes go through while there
    is room, and a push onto the full buffer returns [ErrUnsupported] and
    leaves the buffer as it is. *)
Theorem unknown_full_policy :
  forall (T : Type) (zero : T) (W : Type) (capacity wf : Z)
         (oc : option (@Unsafe.OnCloseFunc T W)) (xs : list T) (x : T),
    wf <> WhenFullError ->
    wf <> WhenFullOverwrite ->
    1 <= capacity <= intMax ->
    Z.of_nat (length xs) = capacity ->
    exists r pushed r1,
      Unsafe.newUnsafe zero capacity wf oc = Done (r, None) /\
      pushAll xs r = Done (pushed, r1) /\
      map snd pushed = map (fun _ => None) xs /\
      Unsafe.Push x r1 = Done ((0, Some ErrUnsupported), r1).
Proof.
  intros T zero W capacity wf oc xs x Hw1 Hw2 Hc Hn.
  destruct (newUnsafe_Rep zero capacity wf oc Hc) as (r & Hnew & HR & Hlen & Hw).
  destruct (pushAll_Rep xs r [] HR) as (pushed & r1 & HP & Herr & HR1 & Hlen1 & Hwf1);
    [cbn [length]; lia |].
  cbn [app] in HR1.
  exists r, pushed, r1. split_and!; try assumption.
  pose proof (Rep_IsFull r1 xs HR1) as HF. unfold Unsafe.IsFull in HF.
  destruct HR1 as (Hcl & _). rewrite Hcl in HF.
  unfold Unsafe.Push, Unsafe.full_policy. rewrite Hcl, HF, Hwf1, Hw, Hlen1, Hlen.
  replace (Z.of_nat (length xs) =? capacity) with true by (symmetry; apply Z.eqb_eq; lia).
  destruct (Z.eqb_spec wf WhenFullError); [contradiction |].
  destruct (Z.eqb_spec wf WhenFullOverwrite); [contradiction |].
  reflexivity.
Qed.

Lemma unknown_full_policy_witness :
  exists r pushed r1,
    Unsafe.newUnsafe (W := unit) 0 2 7 None = Done (r, None) /\
    pushAll [1; 2] r = Done (pushed, r1) /\
    map snd pushed = [None; None] /\
    Unsafe.Push 3 r1 = Done ((0, Some ErrUnsupported), r1).
Proof.
  apply (unknown_full_policy Z 0 unit 2 7 None [1; 2] 3).
  - discriminate.
  - discriminate.
  - vm_compute. split; congruence.
  - reflexivity.
Defined.



(** X7. The first pushes onto a new buffer fill the backing store from
    slot 0 on, in the order of the pushes: after N <= capacity pushes the
    store is the pushed elements followed by zero values, and [start] is
    still 0. *)
Theorem fresh_store_layout :
  forall (T : Type) (zero : T) (W : Type) (capacity wf : Z)
         (oc : option (@Unsafe.OnCloseFunc T W)) (xs : list T),
    1 <= capacity <= intMax ->
    Z.of_nat (length xs) <= capacity ->
    exists r pushed r1,
      Unsafe.newUnsafe zero capacity wf oc = Done (r, None) /\
      pushAll xs r = Done (pushed, r1) /\
      map snd pushed = map (fun _ => None) xs /\
      Unsafe.data r1 = xs ++ repeat zero (Z.to_nat capacity - length xs) /\
      Unsafe.start r1 = 0.
Proof.
  intros T zero W capacity wf oc xs Hc Hn.
  destruct (newUnsafe_Rep zero capacity wf oc Hc) as (r & Hnew & HR & Hlen & Hw).
  assert (Hd : Unsafe.data r = [] ++ repeat zero (Z.to_nat capacity)).
  { unfold Unsafe.newUnsafe, Unsafe.make in Hnew.
    destruct (capacity <? 0); [discriminate |].
    cbn in Hnew. injection Hnew as <-. reflexivity. }
  assert (Hs : Unsafe.start r = 0).
  { unfold Unsafe.newUnsafe, Unsafe.make in Hnew.
    destruct (capacity <? 0); [discriminate |].
    cbn in Hnew. injection Hnew as <-. reflexivity. }
  destruct (pushAll_front zero xs r [] (Z.to_nat capacity) HR Hs Hd ltac:(lia))
    as (pushed & r1 & HP & Herr & _ & Hs1 & Hd1).
  exists r, pushed, r1. by split_and!.
Qed.

Lemma fresh_store_layout_witness :
  exists r pushed r1,
    Unsafe.newUnsafe (W := unit) 0 5 WhenFullError None = Done (r, None) /\
    pushAll [4; 5; 6] r = Done (pushed, r1) /\
    map snd pushed = [None; None; None] /\
    Unsafe.data r1 = [4; 5; 6; 0; 0] /\
    Unsafe.start r1 = 0.
Proof.
  apply (fresh_store_layout Z 0 unit 5 WhenFullError None [4; 5; 6]).
  - vm_compute. split; congruence.
  - vm_compute. congruence.
Defined.

(** X8. The backing store is never resized and pushes, pops and peeks
    never close the buffer: after every call of any sequence on a new
    buffer of capacity c >= 1, whatever the full-policy, the buffer is
    open and [Cap] returns c. *)
Theorem capacity_is_fixed :
  forall (T : Type) (zero : T) (W : Type) (capacity wf : Z)
         (oc : option (@Unsafe.OnCloseFunc T W)) (ops : list (@op T)),
    1 <= capacity <= intMax ->
    exists r tr,
      Unsafe.newUnsafe zero capacity wf oc = Done (r, None) /\
      run zero ops r = Done tr /\
      Forall (fun entry : @op T * option error * @Unsafe.unsafeRQ T W =>
                Unsafe.closed (snd entry) = false /\
                Unsafe.Cap (snd entry) = capacity) tr.
Proof.
  intros T zero W capacity wf oc ops Hc.
  destruct (newUnsafe_Idx zero capacity wf oc Hc) as (r & Hnew & HI).
  destruct (run_Idx_states zero capacity ops r Hc HI) as (tr & Hrun & Hall).
  exists r, tr. split_and!; try assumption.
  eapply Forall_impl; [exact Hall |].
  intros [[o err] r'] (Hcl & Hlen & _). cbn [snd] in *.
  unfold Unsafe.Cap. rewrite Hcl. by split.
Qed.

Lemma capacity_is_fixed_witness :
  exists r tr,
    Unsafe.newUnsafe (W := unit) 0 2 WhenFullOverwrite None = Done (r, None) /\
    run 0 [OpPush 1; OpPush 2; OpPush 3; OpPop; OpPop; OpPeek] r = Done tr /\
    Forall (fun entry : @op Z * option error * @Unsafe.unsafeRQ Z unit =>
              Unsafe.closed (snd entry) = false /\
              Unsafe.Cap (snd entry) = 2) tr.
Proof.
  apply (capacity_is_fixed Z 0 unit 2 WhenFullOverwrite None
           [OpPush 1; OpPush 2; OpPush 3; OpPop; OpPop; OpPeek]).
  vm_compute. split; congruence.
Defined.

(** X9. On a coordinator whose close signal has not been sent, [Push]
    returns what the buffer's [Push] returns, with the length 0 when
    there is an error; under the Block empty-policy the token of
    [available] is there afterwards whether the push went through or not
    (a token already there is left as it is), and under any other
    empty-policy [available] is not touched. *)
Theorem push_posts_token :
  forall (T W : Type) (s : @Safe.safeRQ T W) (x : T) (choice : nat)
         (n : Z) (err : option error) (r' : @Unsafe.unsafeRQ T W),
    Safe.closedCh s = false ->
    Unsafe.Push x (Safe.rq s) = Done ((n, err), r') ->
    Safe.Push choice x s =
      Done ((match err with Some _ => 0 | None => n end, err),
            if Safe.whenEmpty s =? WhenEmptyBlock
            then Safe.set_available true (Safe.set_rq r' s)
            else Safe.set_rq r' s).
Proof. intros T W s x choice n err r'. apply Safe_Push_open. Qed.

Lemma push_posts_token_witness :
  Safe.Push 0 7
    (Safe.mkSafe (Unsafe.mkRQ (W := unit) [0] false 0 0 WhenFullError false false None)
                 false false 0 WhenEmptyBlock false)
  = Done ((1, None),
          Safe.mkSafe (Unsafe.mkRQ [7] true 0 0 WhenFullError false false None)
                      false false 0 WhenEmptyBlock true) /\
  Safe.Push 0 8
    (Safe.mkSafe (Unsafe.mkRQ (W := unit) [7] true 0 0 WhenFullError false false None)
                 false false 0 WhenEmptyBlock false)
  = Done ((0, Some ErrFullQueue),
          Safe.mkSafe (Unsafe.mkRQ [7] true 0 0 WhenFullError false false None)
                      false false 0 WhenEmptyBlock true).
Proof.
  split.
  - apply (push_posts_token Z unit
             (Safe.mkSafe (Unsafe.mkRQ [0] false 0 0 WhenFullError false false None)
                          false false 0 WhenEmptyBlock false)
             7 0%nat 1 None
             (Unsafe.mkRQ [7] true 0 0 WhenFullError false false None));
      reflexivity.
  - apply (push_posts_token Z unit
             (Safe.mkSafe (Unsafe.mkRQ [7] true 0 0 WhenFullError false false None)
                          false false 0 WhenEmptyBlock false)
             8 0%nat 0 (Some ErrFullQueue)
             (Unsafe.mkRQ [7] true 0 0 WhenFullError false false None));
      reflexivity.
Defined.

(** X10. When the buffer holds at least one element, [Pop] of the
    coordinator returns the oldest at once, under any empty-policy and
    schedule: no [select] is run, the token of [available], the deadline
    and the clock are left as they are. *)
Theorem pop_nonempty_is_immediate :
  forall (T : Type) (zero : T) (W : Type) (s : @Safe.safeRQ T W) (e : @Safe.env W)
         (x : T) (l : list T) (sched : list nat),
    Rep (Safe.rq s) (x :: l) ->
    exists r', Rep r' l /\
               Safe.Pop zero sched s e
                 = Done ((x, Unsafe.Len r', None), Safe.set_rq r' s, e).
Proof.
  intros T zero W s e x l sched HR.
  destruct (Safe_Pop_nonempty zero s e x l sched HR) as (r' & _ & HR' & HP).
  by exists r'.
Qed.

Lemma pop_nonempty_is_immediate_witness :
  exists r',
    Rep r' [8] /\
    Safe.Pop 0 [3%nat]
      (Safe.mkSafe (Unsafe.mkRQ (W := unit) [9; 7; 8] false 1 0 WhenFullError false false None)
                   false false 0 WhenEmptyBlock false)
      (Safe.mkEnv 0 tt)
    = Done ((7, Unsafe.Len r', None),
            Safe.mkSafe r' false false 0 WhenEmptyBlock false,
            Safe.mkEnv 0 tt).
Proof.
  apply (pop_nonempty_is_immediate Z 0 unit
           (Safe.mkSafe (Unsafe.mkRQ [9; 7; 8] false 1 0 WhenFullError false false None)
                        false false 0 WhenEmptyBlock false)
           (Safe.mkEnv 0 tt) 7 [8] [3%nat]).
  unfold Rep. cbn. split_and!; try reflexivity; try (vm_compute; congruence).
  intros [| [| i]] Hi; cbn in Hi; try lia; reflexivity.
Defined.

(** X11. On an empty buffer under the Block empty-policy, the close
    signal not sent: with no deadline set [Pop] blocks, whatever the
    schedule and whether or not a token was left in [available]; with a
    deadline set it returns [DeadlineExceeded], the clock then standing
    at the later of the time of the call and the deadline, and the buffer
    and the deadline are left as they are. *)
Theorem pop_empty_blocks_or_times_out :
  forall (T : Type) (zero : T) (W : Type) (s : @Safe.safeRQ T W) (e : @Safe.env W)
         (sched : list nat),
    Rep (Safe.rq s) [] ->
    Safe.whenEmpty s = WhenEmptyBlock ->
    Safe.closedCh s = false ->
    if Safe.deadline s =? 0
    then Safe.Pop zero sched s e = Blocked
    else exists s',
           Safe.Pop zero sched s e
             = Done ((zero, 0, Some DeadlineExceeded), s',
                     Safe.mkEnv (Z.max (Safe.now e) (Safe.deadline s)) (Safe.world e)) /\
           Safe.rq s' = Safe.rq s /\ Safe.deadline s' = Safe.deadline s.
Proof.
  intros T zero W s e sched HR Hw Hc.
  apply (Safe_Pop_fuel_empty_block zero 1 s e sched HR Hw Hc). lia.
Qed.

Lemma pop_empty_blocks_or_times_out_witness :
  Safe.Pop 0 [0%nat]
    (Safe.mkSafe (Unsafe.mkRQ (W := unit) [0; 0] false 1 1 WhenFullError false false None)
                 false false 0 WhenEmptyBlock true)
    (Safe.mkEnv 3 tt) = Blocked /\
  exists s',
    Safe.Pop 0 [0%nat]
      (Safe.mkSafe (Unsafe.mkRQ (W := unit) [0; 0] false 1 1 WhenFullError false false None)
                   false false 10 WhenEmptyBlock true)
      (Safe.mkEnv 3 tt)
    = Done ((0, 0, Some DeadlineExceeded), s', Safe.mkEnv 10 tt) /\
    Safe.rq s' = Unsafe.mkRQ [0; 0] false 1 1 WhenFullError false false None /\
    Safe.deadline s' = 10.
Proof.
  split.
  - apply (pop_empty_blocks_or_times_out Z 0 unit
             (Safe.mkSafe (Unsafe.mkRQ [0; 0] false 1 1 WhenFullError false false None)
                          false false 0 WhenEmptyBlock true)
             (Safe.mkEnv 3 tt) [0%nat]); try reflexivity.
    apply Rep_empty; try reflexivity; vm_compute; split; congruence.
  - apply (pop_empty_blocks_or_times_out Z 0 unit
             (Safe.mkSafe (Unsafe.mkRQ [0; 0] false 1 1 WhenFullError false false None)
                          false false 10 WhenEmptyBlock true)
             (Safe.mkEnv 3 tt) [0%nat]); try reflexivity.
    apply Rep_empty; try reflexivity; vm_compute; split; congruence.
Defined.

(** X12. On a new coordinator under the Block empty-policy, a pop that
    follows a push returns the pushed element at once and does not take
    the token that the push posted: the token is stale, and the next pop
    takes it, tries the empty buffer again and, no deadline being set,
    blocks. *)
Theorem push_then_pop :
  forall (T : Type) (zero : T) (W : Type) (capacity wf : Z)
         (oc : option (@Unsafe.OnCloseFunc T W)) (x : T) (choice : nat)
         (sched sched' : list nat) (e : @Safe.env W),
    1 <= capacity <= intMax ->
    exists s n s1 n' s2,
      Safe.NewSafe zero capacity wf WhenEmptyBlock oc = Done (Some s, None) /\
      Safe.Push choice x s = Done ((n, None), s1) /\
      Safe.Pop zero sched s1 e = Done ((x, n', None), s2, e) /\
      Safe.available s2 = true /\
      Safe.Pop zero sched' s2 e = Blocked.
Proof.
  intros T zero W capacity wf oc x choice sched sched' e Hc.
  destruct (newUnsafe_Rep zero capacity wf oc Hc) as (r & Hnew & HR & Hlen & Hw).
  destruct (Push_Rep r [] x HR ltac:(cbn [length]; lia)) as (r1 & HP & HR1 & _).
  cbn [app] in HR1.
  set (s := Safe.mkSafe r false false 0 WhenEmptyBlock false).
  set (s1 := Safe.set_available true (Safe.set_rq r1 s)).
  destruct (Safe_Pop_nonempty zero s1 e x [] sched HR1) as (r2 & _ & HR2 & HPop).
  exists s, (Unsafe.Len r1), s1, (Unsafe.Len r2), (Safe.set_rq r2 s1).
  split_and!.
  - unfold Safe.NewSafe. rewrite Hnew. reflexivity.
  - rewrite (Safe_Push_open s x choice _ None r1 eq_refl HP). reflexivity.
  - exact HPop.
  - reflexivity.
  - apply (Safe_Pop_fuel_empty_block zero 1 (Safe.set_rq r2 s1) e sched' HR2 eq_refl eq_refl).
    lia.
Qed.

Lemma push_then_pop_witness :
  exists s n s1 n' s2,
    Safe.NewSafe (W := unit) 0 2 WhenFullError WhenEmptyBlock None = Done (Some s, None) /\
    Safe.Push 0 5 s = Done ((n, None), s1) /\
    Safe.Pop 0 [] s1 (Safe.mkEnv 0 tt) = Done ((5, n', None), s2, Safe.mkEnv 0 tt) /\
    Safe.available s2 = true /\
    Safe.Pop 0 [] s2 (Safe.mkEnv 0 tt) = Blocked.
Proof.
  apply (push_then_pop Z 0 unit 2 WhenFullError None 5 0%nat [] [] (Safe.mkEnv 0 tt)).
  vm_compute. split; congruence.
Defined.

(** X13. Once [Close] has run on a coordinator that was not closed
    before, the queue is inert: [Len] and [Cap] return 0, [IsFull]
    returns false, [Peek] and every [Push] return [ErrClosed], as do
    [Push], [Pop] and [Peek] of the buffer, and under the Block
    empty-policy with no deadline set so does every [Pop] of the
    coordinator. *)
Theorem closed_queue_is_inert :
  forall (T : Type) (zero : T) (W : Type) (s : @Safe.safeRQ T W) (e : @Safe.env W) (x : T),
    Safe.closeOnce s = false ->
    Unsafe.closeOnce (Safe.rq s) = false ->
    exists s1 e1,
      Safe.Close s e = (None, s1, e1) /\
      Safe.Len s1 = 0 /\ Safe.Cap s1 = 0 /\
      Unsafe.IsFull (Safe.rq s1) = false /\
      Safe.Peek zero s1 = Done ((zero, 0, Some ErrClosed), s1) /\
      (forall choice : nat,
         exists s2, Safe.Push choice x s1 = Done ((0, Some ErrClosed), s2)) /\
      Unsafe.Push x (Safe.rq s1) = Done ((0, Some ErrClosed), Safe.rq s1) /\
      Unsafe.Pop zero (Safe.rq s1) = Done ((zero, 0, Some ErrClosed), Safe.rq s1) /\
      Unsafe.Peek zero (Safe.rq s1) = Done ((zero, 0, Some ErrClosed), Safe.rq s1) /\
      (Safe.whenEmpty s = WhenEmptyBlock -> Safe.deadline s = 0 ->
       forall (sched : list nat) (e' : @Safe.env W),
         exists s2, Safe.Pop zero sched s1 e' = Done ((zero, 0, Some ErrClosed), s2, e')).
Proof.
  intros T zero W s e x H1 H2.
  destruct (Safe_Close_first s e H1 H2) as (s1 & HC & Ho & Hch & Hro & Hcl & Hd).
  assert (Hwe : Safe.whenEmpty s1 = Safe.whenEmpty s /\ Safe.deadline s1 = Safe.deadline s).
  { unfold Safe.Close in HC. rewrite H1 in HC.
    destruct (Unsafe.Close _ _) as [[err r] w]. injection HC as _ <- _. by split. }
  destruct Hwe as [Hwe Hdl].
  eexists s1, _. split; [exact HC |].
  destruct (Safe_Len_Cap_closed s1 Hcl) as [HL HCap].
  split_and!; try assumption.
  - unfold Unsafe.IsFull. by rewrite Hcl.
  - by apply Safe_Peek_closed.
  - intros choice. by apply Safe_Push_closed.
  - by apply Push_closed.
  - by apply Pop_closed.
  - by apply Peek_closed.
  - intros Hb Hz sched e'. apply Safe_Pop_closed_block; congruence.
Qed.

Lemma closed_queue_is_inert_witness :
  exists s1 e1,
    Safe.Close
      (Safe.mkSafe (Unsafe.mkRQ [7; 8] true 0 0 WhenFullError false false
                      (Some Scenario.record_close))
                   false false 0 WhenEmptyBlock true)
      (Safe.mkEnv 0 []) = (None, s1, e1) /\
    Safe.Len s1 = 0 /\ Safe.Cap s1 = 0 /\
    Safe.Peek 0 s1 = Done ((0, 0, Some ErrClosed), s1) /\
    (exists s2, Safe.Push 0 9 s1 = Done ((0, Some ErrClosed), s2)) /\
    (exists s2, Safe.Pop 0 [1%nat] s1 (Safe.mkEnv 0 [])
                = Done ((0, 0, Some ErrClosed), s2, Safe.mkEnv 0 [])).
Proof.
  destruct (closed_queue_is_inert Z 0 Scenario.close_log
              (Safe.mkSafe (Unsafe.mkRQ [7; 8] true 0 0 WhenFullError false false
                              (Some Scenario.record_close))
                           false false 0 WhenEmptyBlock true)
              (Safe.mkEnv 0 []) 9 eq_refl eq_refl)
    as (s1 & e1 & HC & HL & HCap & _ & HPeek & HPush & _ & _ & _ & HPop).
  exists s1, e1. split_and!; try assumption.
  - apply HPush.
  - apply HPop; reflexivity.
Defined.



(** X15. The loop of [simRQ], which pops when the buffer is full before
    it pushes, keeps a sliding window: after N iterations on a buffer of
    capacity c >= 1 the buffer holds the last min(N, c) of the numbers
    0 .. N - 1, and popping until empty returns them oldest first. *)
Theorem simRQ_keeps_last :
  forall (capacity : Z) (iterations : nat),
    1 <= capacity <= intMax ->
    Z.of_nat iterations <= intMax ->
    exists rr rr',
      simRQ capacity iterations = Done rr /\
      drain 0 (S (min iterations (Z.to_nat capacity))) rr
        = Done (map Z.of_nat (seq (iterations - Z.to_nat capacity)
                                  (min iterations (Z.to_nat capacity))),
                Some ErrEmptyQueue, rr').
Proof.
  intros capacity iterations Hc Hn.
  destruct (newUnsafe_Rep (W := unit) 0 capacity WhenFullError None Hc)
    as (r & Hnew & HR & Hlen & _).
  destruct (simRQ_loop_Rep iterations 0 r) as (rr & Hloop & Hlen' & HR').
  - rewrite Hlen. cbn [Nat.sub Nat.min seq map]. exact HR.
  - cbn [Nat.add]. exact Hn.
  - rewrite Hlen in HR'. cbn [Nat.add] in HR'.
    destruct (drain_Rep 0 _ rr (S (min iterations (Z.to_nat capacity))) HR')
      as (rr' & HD & _).
    { rewrite window_length. lia. }
    exists rr, rr'. split; [| exact HD].
    unfold simRQ. rewrite Hnew. exact Hloop.
Qed.

Lemma simRQ_keeps_last_witness :
  exists rr rr',
    simRQ 3 7 = Done rr /\
    drain 0 4 rr = Done ([4; 5; 6], Some ErrEmptyQueue, rr').
Proof.
  apply (simRQ_keeps_last 3 7); vm_compute; try split; congruence.
Defined.

(** X16. The lengths returned by the first pushes onto a new buffer are
    1, 2, ..., N, for N <= capacity, and none of these pushes returns an
    error. *)
Theorem fresh_push_lengths :
  forall (T : Type) (zero : T) (W : Type) (capacity wf : Z)
         (oc : option (@Unsafe.OnCloseFunc T W)) (xs : list T),
    1 <= capacity ->
    2 * capacity <= intMax ->
    Z.of_nat (length xs) <= capacity ->
    exists r r',
      Unsafe.newUnsafe zero capacity wf oc = Done (r, None) /\
      pushAll xs r
        = Done (map (fun k : nat => (Z.of_nat k, None)) (seq 1 (length xs)), r').
Proof.
  intros T zero W capacity wf oc xs Hc H2 Hn.
  destruct (newUnsafe_Rep zero capacity wf oc ltac:(lia)) as (r & Hnew & HR & Hlen & Hw).
  assert (Hs : Unsafe.start r = 0).
  { unfold Unsafe.newUnsafe, Unsafe.make in Hnew.
    destruct (capacity <? 0); [discriminate |].
    cbn in Hnew. injection Hnew as <-. reflexivity. }
  destruct (pushAll_lengths xs r [] HR Hs) as (res & r' & HP & ->);
    [lia | cbn [length]; lia |].
  by exists r, r'.
Qed.

Lemma fresh_push_lengths_witness :
  exists r r',
    Unsafe.newUnsafe (W := unit) 0 3 WhenFullOverwrite None = Done (r, None) /\
    pushAll [7; 8; 9] r = Done ([(1, None); (2, None); (3, None)], r').
Proof.
  apply (fresh_push_lengths Z 0 unit 3 WhenFullOverwrite None [7; 8; 9]);
    vm_compute; congruence.
Defined.
